(** * langfun.core.message: a shallow embedding of [Message]

    The development follows [src/langfun/core/message.py]: the path-addressed
    [set]/[get] pair, change tracking with [update_scope], tagging, the
    modality chunker and its inverse [from_chunks], the source-chain walkers
    [root], [trace] and [last], and the equality and hashing contract.

    Python objects that are shared and mutated (the [_updates] dictionary, the
    [_errors] list, the messages linked by [source]) live in explicit stores
    and are referred to by address.  Loops that follow [source] links or scan
    the text take a fuel argument; the theorems say how much fuel is enough. *)

From Stdlib Require Import Ascii.
From stdpp Require Import gmap strings list fin_maps pretty.

Set Warnings "-register-all".

(** ** Python strings *)

(** A Python [str] is modelled as a [string] whose characters are the code
    points below 256. *)
Module PyStr.

(** [str.isspace] on one character: tab, line feed, vertical tab, form
    feed, carriage return, the four separators 28 to 31, the space, and the
    two Latin-1 blanks 133 and 160. *)
Definition isspace (c : ascii) : bool :=
  let n := nat_of_ascii c in
  ((9 <=? n) && (n <=? 13)) || ((28 <=? n) && (n <=? 32))
  || (n =? 133) || (n =? 160).

Definition is_empty (s : string) : bool :=
  match s with EmptyString => true | String _ _ => false end.

Fixpoint lstrip (s : string) : string :=
  match s with
  | EmptyString => EmptyString
  | String c s' => if isspace c then lstrip s' else s
  end.

Fixpoint rstrip (s : string) : string :=
  match s with
  | EmptyString => EmptyString
  | String c s' =>
      let r := rstrip s' in
      if isspace c && is_empty r then EmptyString else String c r
  end.

(** [s.strip()] *)
Definition strip (s : string) : string := lstrip (rstrip s).

(** [text.find(sub, start)] for [start >= 0]; [None] stands for [-1]. *)
Definition find (sub text : string) (start : nat) : option nat :=
  String.index start sub text.

(** [text[a:b]] and [text[a:]] for non-negative bounds. *)
Definition slice (a b : nat) (text : string) : string :=
  String.substring a (b - a) text.

Definition slice_from (a : nat) (text : string) : string :=
  String.substring a (String.length text - a) text.

(** The line feed, the default separator of [from_chunks]. *)
Definition LF : string := String (ascii_of_nat 10) EmptyString.

End PyStr.

(** ** Values held in metadata *)

(** Modelled from the spec: [langfun/core/modality.py] is not part of the
    sources at hand.  A modality is a non-text payload embeddable by reference
    inside message text (glossary); the text carries a delimited marker
    [{{var_name}}] referencing the metadata key (section 3).  [owned] records
    whether the object already has a symbolic parent, which is what
    [pg.maybe_ref] inspects. *)
Record Modality := mkModality { payload : string; owned : bool }.

(** Modelled from the spec: the fixed start/end delimiter pair and the
    marker-producing function of the modality protocol (sections 3 and 6),
    with the marker [{{var_name}}]. *)
Module modality.
Definition REF_START : string := "{{".
Definition REF_END : string := "}}".
Definition text_marker (var_name : string) : string :=
  REF_START +:+ var_name +:+ REF_END.
End modality.

(** The fragment of Python values stored in [metadata]: [None], the
    [pg.MISSING_VALUE] sentinel, integers, strings, modality objects,
    [pg.Ref] wrappers, lists and string-keyed dictionaries. *)
Inductive Value :=
| VNone
| VMissing
| VInt (z : Z)
| VStr (s : string)
| VMod (o : Modality)
| VRef (v : Value)
| VList (l : list Value)
| VDict (d : gmap string Value).

Global Instance Modality_eq_dec : EqDecision Modality.
Proof. solve_decision. Defined.

Fixpoint Value_eq_dec (x y : Value) {struct x} : Decision (x = y).
Proof.
  refine
    match x, y with
    | VNone, VNone => left eq_refl
    | VMissing, VMissing => left eq_refl
    | VInt a, VInt b => cast_if (decide (a = b))
    | VStr a, VStr b => cast_if (decide (a = b))
    | VMod a, VMod b => cast_if (decide (a = b))
    | VRef a, VRef b => cast_if (Value_eq_dec a b)
    | VList a, VList b => cast_if (@list_eq_dec _ Value_eq_dec a b)
    | VDict a, VDict b =>
        cast_if (@decide (a = b) (@gmap_eq_dec _ _ _ _ Value_eq_dec a b))
    | _, _ => right _
    end; congruence.
Defined.
Global Instance Value_eq_decision : EqDecision Value := Value_eq_dec.

Definition is_missing (v : Value) : bool :=
  match v with VMissing => true | _ => false end.

(** Modelled from the spec: pyglove's [pg.maybe_ref] (section 4.3, an object
    already owned elsewhere is stored as a non-owning reference): a reference
    when the value already has a parent, the value itself otherwise. *)
Definition maybe_ref (o : Modality) : Value :=
  if owned o then VRef (VMod o) else VMod o.

(** ** Errors *)

Inductive Exn :=
| KeyError | ValueError | TypeError | IndexError | AssertionError
| Exception (msg : string).

Inductive Result (A : Type) :=
| Ok (a : A)
| Raise (e : Exn).
Arguments Ok {A} a.
Arguments Raise {A} e.

Global Instance Result_ret : MRet Result := λ A a, Ok a.
Global Instance Result_bind : MBind Result := λ A B f r,
  match r with Ok a => f a | Raise e => Raise e end.

(** ** Key paths and the structural read and update of pyglove *)

(** A key of a path: a field name or a list index, which may be
    negative. *)
Inductive Key :=
| KName (name : string)
| KIndex (i : Z).

Global Instance Key_eq_dec : EqDecision Key.
Proof. solve_decision. Defined.

Global Instance Key_countable : Countable Key.
Proof.
  refine (inj_countable'
    (λ k, match k with KName s => inl s | KIndex i => inr i end)
    (λ x, match x with inl s => KName s | inr i => KIndex i end) _).
  by intros [].
Defined.

Abbreviation KeyPath := (list Key).

(** A field update as [_on_change] receives it: the path of the field, the
    value before ([VMissing] when there was none) and the value after. *)
Record FieldUpdate := mkFieldUpdate {
  path : KeyPath;
  old_value : Value;
  new_value : Value
}.

(** pyglove is a library outside the repository.  The definitions of this
    module follow what the library does on the calls [Message] makes. *)
Module pg.

Definition digit_of (c : ascii) : option nat :=
  let n := nat_of_ascii c in
  if (48 <=? n) && (n <=? 57) then Some (n - 48) else None.

Fixpoint nat_of_digits (s : string) (acc : nat) : option nat :=
  match s with
  | EmptyString => Some acc
  | String c s' =>
      match digit_of c with
      | Some d => nat_of_digits s' (10 * acc + d)
      | None => None
      end
  end.

(** [key.lstrip('-')], with the number of dashes removed. *)
Fixpoint lstrip_dashes (s : string) : nat * string :=
  match s with
  | String c s' =>
      if decide (c = "-"%char) then
        let '(n, r) := lstrip_dashes s' in (S n, r)
      else (0, s)
  | EmptyString => (0, s)
  end.

(** The local function [_append_key] of [KeyPath.parse] for a key of a
    dotted part: an empty key is dropped. *)
Definition flush_name (buf : string) (keys : KeyPath) : KeyPath :=
  if PyStr.is_empty buf then keys else keys ++ [KName buf].

(** [_append_key] for a key in brackets: the key is kept when empty, and
    is the integer [int(key)] when it is made of digits behind dashes;
    [int] accepts one dash at most. *)
Definition bracket_key (buf : string) : Result Key :=
  let '(dashes, body) := lstrip_dashes buf in
  match body with
  | EmptyString => Ok (KName buf)
  | String _ _ =>
      match nat_of_digits body 0 with
      | Some i =>
          match dashes with
          | 0 => Ok (KIndex (Z.of_nat i))
          | 1 => Ok (KIndex (- Z.of_nat i))
          | _ => Raise ValueError
          end
      | None => Ok (KName buf)
      end
  end.

Definition snoc (buf : string) (c : ascii) : string :=
  buf +:+ String c EmptyString.

(** The loop of [KeyPath.parse] over the characters still to read: [buf]
    is the key read so far ([path_str[key_start:pos]]) and [unmatched] the
    number of brackets that are open.  A closing bracket without an open
    one and an open bracket at the end of the string are a
    [ValueError]. *)
Fixpoint parse_go (s : string) (buf : string) (unmatched : nat)
    (keys : KeyPath) : Result KeyPath :=
  match s with
  | EmptyString =>
      match unmatched with
      | 0 => Ok (flush_name buf keys)
      | S _ => Raise ValueError
      end
  | String c s' =>
      if decide (c = "]"%char) then
        match unmatched with
        | 0 => Raise ValueError
        | 1 => key ← bracket_key buf; parse_go s' EmptyString 0 (keys ++ [key])
        | S unmatched => parse_go s' (snoc buf c) unmatched keys
        end
      else if decide (c = "["%char) then
        match unmatched with
        | 0 => parse_go s' EmptyString 1 (flush_name buf keys)
        | S _ => parse_go s' (snoc buf c) (S unmatched) keys
        end
      else if decide (c = "."%char) then
        match unmatched with
        | 0 => parse_go s' EmptyString 0 (flush_name buf keys)
        | S _ => parse_go s' (snoc buf c) unmatched keys
        end
      else parse_go s' (snoc buf c) unmatched keys
  end.

(** [KeyPath.parse]: the empty string is the root path. *)
Definition parse (key_path : string) : Result KeyPath :=
  parse_go key_path EmptyString 0 [].

(** The position in a list of length [n] that the index [i] stands for:
    a negative index counts from the end. *)
Definition position (n : nat) (i : Z) : option nat :=
  if decide (0 ≤ i < Z.of_nat n)%Z then Some (Z.to_nat i)
  else if decide (- Z.of_nat n ≤ i < 0)%Z then Some (Z.to_nat (Z.of_nat n + i))
  else None.

(** One step of a structural read, by name into a mapping or by index
    into a sequence. *)
Definition get_item (v : Value) (k : Key) : option Value :=
  match v, k with
  | VDict d, KName n => d !! n
  | VList l, KIndex i => j ← position (length l) i; l !! j
  | _, _ => None
  end.

(** [KeyPath.query]: the structural read inside a tree-shaped value;
    [None] stands for the [KeyError] of a path that does not resolve. *)
Fixpoint query (v : Value) (p : KeyPath) : option Value :=
  match p with
  | [] => Some v
  | k :: rest =>
      match get_item v k with
      | Some child => query child rest
      | None => None
      end
  end.

(** [pg.Dict.sym_get(key_path, default)]: the path is parsed, and the
    default is returned if it does not resolve. *)
Definition sym_get (d : gmap string Value) (key_path : string)
    (default : Value) : Result Value :=
  p ← parse key_path;
  Ok (from_option id default (query (VDict d) p)).

(** One step of a structural update, on the container that holds the
    key.  Assigning the missing sentinel deletes the entry.  In a list, an
    index at or past the end appends the value (and does nothing for the
    missing sentinel), and an index before the start is out of range.  A
    value that is no container has no keys. *)
Definition set_item (v : Value) (k : Key) (value : Value) : Result Value :=
  match v, k with
  | VDict d, KName n =>
      Ok (VDict (if is_missing value then delete n d else <[n:=value]> d))
  | VList l, KIndex i =>
      if decide (Z.of_nat (length l) ≤ i)%Z then
        Ok (VList (if is_missing value then l else l ++ [value]))
      else
        match position (length l) i with
        | Some j =>
            Ok (VList (if is_missing value then delete j l
                       else <[j:=value]> l))
        | None => Raise IndexError
        end
  | _, _ => Raise KeyError
  end.

(** The structural update at a path: the container that holds the last
    key is looked up along the path and must exist; nothing is created on
    the way.  The root path cannot be rebound. *)
Fixpoint set_item_of_tree (v : Value) (p : KeyPath) (value : Value)
    : Result Value :=
  match p with
  | [] => Raise KeyError
  | k :: rest =>
      match rest with
      | [] => set_item v k value
      | _ :: _ =>
          match get_item v k with
          | Some child =>
              child' ← set_item_of_tree child rest value;
              set_item v k child'
          | None => Raise KeyError
          end
      end
  end.

Definition dict_of (v : Value) : gmap string Value :=
  match v with VDict d => d | _ => ∅ end.

(** Values that are no objects of their own: assigning one is no change
    when the value stored is equal to it. *)
Definition is_scalar (v : Value) : bool :=
  match v with
  | VNone | VMissing | VInt _ | VStr _ => true
  | _ => false
  end.

(** [pg.Dict.rebind({key_path: value}, raise_on_no_change=...)] for a
    parsed path: the new dictionary and the field updates to notify.  No
    update is reported when the value stored is the value assigned, which
    is an error only when [raise_on_no_change] is set.  A list, a
    dictionary or an object that is assigned is taken to be a new object,
    never the one already stored, and is reported as an update even when
    it is equal to it. *)
Definition rebind_path (d : gmap string Value) (p : KeyPath)
    (value : Value) (raise_on_no_change : bool)
    : Result (gmap string Value * list FieldUpdate) :=
  let old := default VMissing (query (VDict d) p) in
  v' ← set_item_of_tree (VDict d) p value;
  let updates :=
    if bool_decide (old = value) && is_scalar value then []
    else [mkFieldUpdate p old value] in
  if raise_on_no_change && bool_decide (updates = []) then Raise ValueError
  else Ok (dict_of v', updates).

Definition rebind (d : gmap string Value) (key_path : string)
    (value : Value) (raise_on_no_change : bool)
    : Result (gmap string Value * list FieldUpdate) :=
  p ← parse key_path;
  rebind_path d p value raise_on_no_change.

End pg.

(** ** Messages *)

Abbreviation addr := nat.

(** The class of a message object: the base class and its four role
    variants. *)
Inductive MessageClass :=
| cMessage | cUserMessage | cAIMessage | cSystemMessage | cMemoryRecord.

Global Instance MessageClass_eq_dec : EqDecision MessageClass.
Proof. solve_decision. Defined.

(** [issubclass(c, base)]: every variant derives from [Message] only. *)
Definition issubclass (c base : MessageClass) : bool :=
  bool_decide (base = cMessage) || bool_decide (c = base).

(** The default [sender] a class declares; the base class declares none. *)
Definition default_sender (c : MessageClass) : option string :=
  match c with
  | cMessage => None
  | cUserMessage => Some "User"
  | cAIMessage => Some "AI"
  | cSystemMessage => Some "System"
  | cMemoryRecord => Some "Memory"
  end.

(** The symbolic fields of a message and its [_source] link, an address in
    the store of messages. *)
Record Message := mkMessage {
  cls : MessageClass;
  text : string;
  sender : string;
  metadata : gmap string Value;
  tags : list string;
  source : option addr
}.

Global Instance Message_eq_dec : EqDecision Message.
Proof. solve_decision. Defined.

Definition PATH_TEXT : string := "text".
Definition PATH_RESULT : string := "result".
Definition TAG_LM_INPUT : string := "lm-input".
Definition TAG_LM_RESPONSE : string := "lm-response".
Definition TAG_LM_OUTPUT : string := "lm-output".

(** [cls(text, sender=..., metadata=..., tags=..., source=..., **kwargs)].
    The keyword arguments are merged into the metadata; a missing sender is
    taken from the class, and is a [ValueError] for the base class, whose
    [sender] field is required and has no default. *)
Definition __init__ (c : MessageClass) (text : string)
    (sender : option string) (metadata : option (gmap string Value))
    (tags : option (list string)) (source : option addr)
    (kwargs : gmap string Value) : Result Message :=
  let metadata := kwargs ∪ default ∅ metadata in
  match from_option Some (default_sender c) sender with
  | Some sender => Ok (mkMessage c text sender metadata (default [] tags) source)
  | None => Raise ValueError
  end.

(** The value of a call for a role variant, whose construction cannot fail. *)
Definition new (c : MessageClass) (text : string)
    (metadata : gmap string Value) : Message :=
  mkMessage c text (default "" (default_sender c)) metadata [] None.

Definition UserMessage (text : string) : Message := new cUserMessage text ∅.
Definition AIMessage (text : string) : Message := new cAIMessage text ∅.
Definition SystemMessage (text : string) : Message := new cSystemMessage text ∅.
Definition MemoryRecord (text : string) : Message := new cMemoryRecord text ∅.

(** What [get] may return: the message itself or a value. *)
Inductive PyAny :=
| AMsg (m : Message)
| AVal (v : Value).

(** [Message.get]; it raises what the parser of key paths raises. *)
Definition get (self : Message) (key_path : string) (default : Value)
    : Result PyAny :=
  if PyStr.is_empty key_path then Ok (AMsg self)
  else if decide (key_path = PATH_TEXT) then Ok (AVal (VStr (text self)))
  else
    v ← pg.sym_get (metadata self) key_path default;
    Ok (AVal (match v with VRef x => x | _ => v end)).

(** ** The message under mutation: change tracking *)

Abbreviation Updates := (gmap KeyPath FieldUpdate).

(** The state a method of one message runs in: the fields of [self], the
    addresses held by [self._updates] and [self._errors], the stores of the
    dictionary and list objects these addresses point into, and pyglove's
    change-notification switch. *)
Record State := mkState {
  self : Message;
  _updates : addr;
  _errors : addr;
  dicts : list Updates;
  lists : list (list Exn);
  notify_enabled : bool
}.

Definition with_self (f : Message → Message) (st : State) : State :=
  mkState (f (self st)) (_updates st) (_errors st) (dicts st) (lists st)
    (notify_enabled st).
Definition with_updates_ref (a : addr) (st : State) : State :=
  mkState (self st) a (_errors st) (dicts st) (lists st) (notify_enabled st).
Definition with_errors_ref (a : addr) (st : State) : State :=
  mkState (self st) (_updates st) a (dicts st) (lists st) (notify_enabled st).
Definition with_dicts (f : list Updates → list Updates) (st : State) : State :=
  mkState (self st) (_updates st) (_errors st) (f (dicts st)) (lists st)
    (notify_enabled st).
Definition with_lists (f : list (list Exn) → list (list Exn)) (st : State)
    : State :=
  mkState (self st) (_updates st) (_errors st) (dicts st) (f (lists st))
    (notify_enabled st).
Definition with_notify (b : bool) (st : State) : State :=
  mkState (self st) (_updates st) (_errors st) (dicts st) (lists st) b.

Definition set_text (s : string) (m : Message) : Message :=
  mkMessage (cls m) s (sender m) (metadata m) (tags m) (source m).
Definition set_sender (s : string) (m : Message) : Message :=
  mkMessage (cls m) (text m) s (metadata m) (tags m) (source m).
Definition set_metadata (d : gmap string Value) (m : Message) : Message :=
  mkMessage (cls m) (text m) (sender m) d (tags m) (source m).
Definition set_tags (l : list string) (m : Message) : Message :=
  mkMessage (cls m) (text m) (sender m) (metadata m) l (source m).

(** Statements run in a state and either return or raise; the state
    survives a raise. *)
Definition M (A : Type) : Type := State → Result A * State.

Global Instance M_ret : MRet M := λ A a st, (Ok a, st).
Global Instance M_bind : MBind M := λ A B f c st,
  match c st with
  | (Ok a, st') => f a st'
  | (Raise e, st') => (Raise e, st')
  end.

Definition raise {A} (e : Exn) : M A := λ st, (Raise e, st).
Definition gets {A} (f : State → A) : M A := λ st, (Ok (f st), st).
Definition modify (f : State → State) : M unit := λ st, (Ok (), f st).

(** [try: body finally: fin]: [fin] runs on every exit path of [body]; an
    exception of [body] goes on once [fin] is done. *)
Definition try_finally {A} (body : M A) (fin : M unit) : M A := λ st,
  match body st with
  | (r, st') =>
      match fin st' with
      | (Ok _, st'') => (r, st'')
      | (Raise e, st'') => (Raise e, st'')
      end
  end.

(** [_on_init]: a message starts with an empty dictionary and an empty list
    of its own. *)
Definition _on_init (m : Message) : State := mkState m 0 0 [∅] [[]] true.

(** The properties [updates] and [errors]: the objects the two addresses
    point to. *)
Definition updates (st : State) : Updates := default ∅ (dicts st !! _updates st).
Definition errors (st : State) : list Exn := default [] (lists st !! _errors st).
Definition modified (st : State) : bool := bool_decide (updates st ≠ ∅).
Definition has_errors (st : State) : bool := bool_decide (errors st ≠ []).

(** [_on_change]: [self._updates.update(field_updates)], in place. *)
Definition _on_change (field_updates : Updates) : M unit :=
  modify (λ st, with_dicts (alter (λ d, field_updates ∪ d) (_updates st)) st).

(** Modelled from the spec: pyglove's notification of a rebind (section
    4.2).  [_on_change] is called with the updates keyed by path, unless
    there is nothing to report or notification is switched off. *)
Definition notify (field_updates : list FieldUpdate) : M unit := λ st,
  if notify_enabled st && negb (bool_decide (field_updates = [])) then
    _on_change (list_to_map ((λ u, (path u, u)) <$> field_updates)) st
  else (Ok (), st).

(** Modelled from the spec: pyglove's [with pg.notify_on_change(enabled):
    body], the switch that lets a mutation bypass change notification
    (section 3). *)
Definition notify_on_change {A} (enabled : bool) (body : M A) : M A :=
  previous ← gets notify_enabled;
  modify (with_notify enabled);;
  try_finally body (modify (with_notify previous)).

(** Modelled from the spec: pyglove's
    [self.rebind({key_path: value}, raise_on_no_change=...)] on the message
    object, for the string fields [text] and [sender] and for paths below
    [metadata]; a value of another type for a string field is a
    [TypeError]. *)
Definition Message_rebind (key_path : string) (value : Value)
    (raise_on_no_change : bool) : M unit := λ st,
  match pg.parse key_path with
  | Raise e => (Raise e, st)
  | Ok p =>
      let scalar (old : string) (store : string → Message → Message) :=
        match value with
        | VStr s =>
            if decide (old = s) then
              ((if raise_on_no_change then Raise ValueError else Ok ()), st)
            else
              notify [mkFieldUpdate p (VStr old) value]
                (with_self (store s) st)
        | _ => (Raise TypeError, st)
        end in
      match p with
      | [KName f] =>
          if decide (f = "text") then scalar (text (self st)) set_text
          else if decide (f = "sender") then
            scalar (sender (self st)) set_sender
          else (Raise KeyError, st)
      | KName f :: rest =>
          if decide (f = "metadata") then
            match pg.rebind_path (metadata (self st)) rest value
                    raise_on_no_change with
            | Ok (d, ups) =>
                notify ((λ u, mkFieldUpdate (KName f :: path u) (old_value u)
                                (new_value u)) <$> ups)
                  (with_self (set_metadata d) st)
            | Raise e => (Raise e, st)
            end
          else (Raise KeyError, st)
      | _ => (Raise KeyError, st)
      end
  end.

(** [self.metadata.rebind({key_path: value}, raise_on_no_change=...)] as
    [set] calls it: the update happens inside the dictionary ([pg.rebind]),
    and the message, its parent, is notified with paths that start at the
    message. *)
Definition metadata_rebind (key_path : string) (value : Value)
    (raise_on_no_change : bool) : M unit := λ st,
  match pg.rebind (metadata (self st)) key_path value raise_on_no_change with
  | Ok (d, ups) =>
      notify ((λ u, mkFieldUpdate (KName "metadata" :: path u) (old_value u)
                      (new_value u)) <$> ups)
        (with_self (set_metadata d) st)
  | Raise e => (Raise e, st)
  end.

(** [Message.set] *)
Definition set (key_path : string) (value : Value) : M unit :=
  if decide (key_path = PATH_TEXT) then Message_rebind key_path value false
  else metadata_rebind key_path value false.

(** [Message.update_scope], with the body of the [with] statement as an
    argument. *)
Definition update_scope {A} (body : M A) : M A :=
  accumulated_updates ← gets _updates;
  accumulated_errors ← gets _errors;
  try_finally
    (fresh_dict ← gets (λ st, length (dicts st));
     fresh_list ← gets (λ st, length (lists st));
     modify (with_dicts (λ h, h ++ [∅]));;
     modify (with_lists (λ h, h ++ [[]]));;
     modify (with_updates_ref fresh_dict);;
     modify (with_errors_ref fresh_list);;
     body)
    (scope_updates ← gets updates;
     modify (with_dicts (alter (λ d, scope_updates ∪ d) accumulated_updates));;
     modify (with_updates_ref accumulated_updates);;
     scope_errors ← gets errors;
     modify (with_lists (alter (λ l, l ++ scope_errors) accumulated_errors));;
     modify (with_errors_ref accumulated_errors)).

(** Modelled from the spec: [self.tags.append(tag)] on pyglove's symbolic
    list, an in-place field mutation (section 4.2): the append itself, then
    the notification to the owning message. *)
Definition tags_append (tag : string) : M unit :=
  n ← gets (λ st, length (tags (self st)));
  modify (with_self (λ m, set_tags (tags m ++ [tag]) m));;
  notify [mkFieldUpdate [KName "tags"; KIndex (Z.of_nat n)] VMissing
            (VStr tag)].

(** [Message.tag] *)
Definition tag (tag : string) : M unit :=
  current ← gets (λ st, tags (self st));
  if bool_decide (tag ∈ current) then mret ()
  else notify_on_change false (tags_append tag).

(** ** Equality and hashing *)

(** The right-hand side of a comparison: a string, a message, or an object
    of another type. *)
Inductive PyObj :=
| PStr (s : string)
| PMsg (m : Message)
| POther.

(** [isinstance(m, c)] *)
Definition isinstance (m : Message) (c : MessageClass) : bool :=
  issubclass (cls m) c.

(** [Message.__eq__] *)
Definition __eq__ (self : Message) (other : PyObj) : bool :=
  match other with
  | PStr s => bool_decide (text self = s)
  | PMsg other =>
      if isinstance other (cls self) then
        bool_decide (text self = text other)
        && bool_decide (sender self = sender other)
        && bool_decide (metadata self = metadata other)
      else false
  | POther => false
  end.

(** The operator [self == other] between two messages.  Python tries the
    method of the right operand first when its class is a proper subclass
    of the class of the left operand, and the method of the left operand
    otherwise; [Message.__eq__] never returns [NotImplemented], so the
    method tried first gives the answer. *)
Definition eq_op (self other : Message) : bool :=
  if bool_decide (cls other ≠ cls self) && issubclass (cls other) (cls self)
  then __eq__ other (PMsg self)
  else __eq__ self (PMsg other).

Section Hashing.
(** Python's built-in [hash] on strings. *)
Variable hash : string → Z.

(** [Message.__hash__] *)
Definition __hash__ (self : Message) : Z := hash (text self).
End Hashing.

(** ** The source chain *)

(** The store of message objects; [source] fields are addresses in it. *)
Abbreviation Heap := (list Message).

(** [Message.root]: the loop follows [source] until a message has none.
    [None] is returned when the fuel runs out first. *)
Fixpoint root (fuel : nat) (h : Heap) (root_ : addr) : option addr :=
  match fuel with
  | 0 => None
  | S fuel =>
      m ← h !! root_;
      match source m with
      | Some s => root fuel h s
      | None => Some root_
      end
  end.

Definition has_tag (h : Heap) (tag : string) (a : addr) : bool :=
  match h !! a with
  | Some m => bool_decide (tag ∈ tags m)
  | None => false
  end.

(** The loop of [Message.trace] on its variables [current] and
    [message_chain]; the result is reversed on exit. *)
Fixpoint trace_loop (fuel : nat) (h : Heap) (tag : option string)
    (current : option addr) (message_chain : list addr)
    : option (list addr) :=
  match fuel with
  | 0 => None
  | S fuel =>
      match current with
      | None => Some (reverse message_chain)
      | Some a =>
          m ← h !! a;
          let message_chain :=
            match tag with
            | None => message_chain ++ [a]
            | Some t =>
                if bool_decide (t ∈ tags m) then message_chain ++ [a]
                else message_chain
            end in
          trace_loop fuel h tag (source m) message_chain
      end
  end.

(** [Message.trace] *)
Definition trace (fuel : nat) (h : Heap) (self : addr) (tag : option string)
    : option (list addr) :=
  trace_loop fuel h tag (Some self) [].

(** The loop of [Message.last] on its variable [current]. *)
Fixpoint last_loop (fuel : nat) (h : Heap) (tag : string)
    (current : option addr) : option (option addr) :=
  match fuel with
  | 0 => None
  | S fuel =>
      match current with
      | None => Some None
      | Some a =>
          m ← h !! a;
          if bool_decide (tag ∈ tags m) then Some (Some a)
          else last_loop fuel h tag (source m)
      end
  end.

(** [Message.last] *)
Definition last (fuel : nat) (h : Heap) (self : addr) (tag : string)
    : option (option addr) :=
  last_loop fuel h tag (Some self).

(** ** Modalities: lookup, chunking and fusion *)

(** [Message.get_modality].  The call returns the modality object found
    ([inl]) or the default ([inr]), or raises what [get] raises.  The fuel
    bounds the depth of the recursion: [None] stands for a recursion that
    is cut off, by the recursion limit of the interpreter or because the
    chain is cyclic, and for a [source] address that is not in the
    store. *)
Fixpoint get_modality {D} (fuel : nat) (h : Heap) (self : Message)
    (var_name : string) (default : D) (from_message_chain : bool)
    : option (Result (Modality + D)) :=
  match fuel with
  | 0 => None
  | S fuel =>
      match get self var_name VNone with
      | Raise e => Some (Raise e)
      | Ok (AVal (VMod obj)) => Some (Ok (inl obj))
      | Ok (AVal VNone) =>
          match source self with
          | Some a =>
              src ← h !! a;
              get_modality fuel h src var_name default from_message_chain
          | None => Some (Ok (inr default))
          end
      | Ok _ => Some (Ok (inr default))
      end
  end.

(** An element of a chunk list: a piece of text or a modality object. *)
Inductive Chunk :=
| CText (s : string)
| CMod (o : Modality).

Global Instance Chunk_eq_dec : EqDecision Chunk.
Proof. solve_decision. Defined.

(** The local function [add_text_chunk] of [Message.chunk]. *)
Definition add_text_chunk (chunks : list Chunk) (text_piece : string)
    : list Chunk :=
  if PyStr.is_empty text_piece then chunks else chunks ++ [CText text_piece].

(** The [while] loop of [Message.chunk] on its variables [chunk_start],
    [ref_end] and [chunks]; [lookup] is [self.get_modality] with the default
    [None].  An exception of the lookup ends the loop and is the outcome
    of the call. *)
Fixpoint chunk_loop (fuel : nat)
    (lookup : string → option (Result (Modality + unit)))
    (text : string) (chunk_start ref_end : nat) (chunks : list Chunk)
    : option (Result (list Chunk)) :=
  match fuel with
  | 0 => None
  | S fuel =>
      if chunk_start <? String.length text then
        match PyStr.find modality.REF_START text ref_end with
        | None =>
            Some (Ok (add_text_chunk chunks
                        (PyStr.strip (PyStr.slice_from chunk_start text))))
        | Some ref_start =>
            let var_start := ref_start + String.length modality.REF_START in
            match PyStr.find modality.REF_END text var_start with
            | None =>
                Some (Ok (add_text_chunk chunks
                            (PyStr.slice_from chunk_start text)))
            | Some ref_end =>
                let var_name :=
                  PyStr.strip (PyStr.slice var_start ref_end text) in
                match lookup var_name with
                | None => None
                | Some (Raise e) => Some (Raise e)
                | Some (Ok (inl var_value)) =>
                    let chunks :=
                      add_text_chunk chunks
                        (PyStr.strip (PyStr.slice chunk_start ref_start text)) in
                    chunk_loop fuel lookup text
                      (ref_end + String.length modality.REF_END) ref_end
                      (chunks ++ [CMod var_value])
                | Some (Ok (inr _)) =>
                    chunk_loop fuel lookup text chunk_start ref_end chunks
                end
            end
        end
      else Some (Ok chunks)
  end.

(** [Message.chunk]; the fuel bounds the loop and each chain lookup. *)
Definition chunk (fuel : nat) (h : Heap) (self : Message)
    : option (Result (list Chunk)) :=
  chunk_loop fuel (λ var_name, get_modality fuel h self var_name () true)
    (text self) 0 0 [].

(** The [for] loop of [Message.from_chunks] on the chunks still to write,
    with the loop index [i] and the variables [fused_text], [ref_index] and
    [metadata]. *)
Fixpoint from_chunks_loop (separator : string) (i : nat)
    (chunks : list Chunk) (fused_text : string) (ref_index : nat)
    (metadata : gmap string Value) : string * gmap string Value :=
  match chunks with
  | [] => (fused_text, metadata)
  | chunk :: rest =>
      let fused_text :=
        if 0 <? i then fused_text +:+ separator else fused_text in
      match chunk with
      | CText s =>
          from_chunks_loop separator (S i) rest (fused_text +:+ s) ref_index
            metadata
      | CMod o =>
          let var_name := "obj" +:+ pretty ref_index in
          from_chunks_loop separator (S i) rest
            (fused_text +:+ modality.text_marker var_name) (S ref_index)
            (<[var_name:=maybe_ref o]> metadata)
      end
  end.

(** [Message.from_chunks], a class method. *)
Definition from_chunks (c : MessageClass) (chunks : list Chunk)
    (separator : string) : Result Message :=
  let '(fused_text, metadata) :=
    from_chunks_loop separator 0 chunks EmptyString 0 ∅ in
  __init__ c (PyStr.strip fused_text) None (Some metadata) None None ∅.

(** ** Auxiliary notions used by the statements *)

(** [chain h current l]: following [source] from [current] visits exactly
    the addresses [l], nearest first, and ends at a message without source. *)
Inductive chain (h : Heap) : option addr → list addr → Prop :=
| chain_nil : chain h None []
| chain_cons a m l :
    h !! a = Some m → chain h (source m) l → chain h (Some a) (a :: l).

Definition source_of (h : Heap) (a : addr) : option addr :=
  m ← h !! a; source m.

(** The value [get] hands out for a stored value: a reference wrapper is
    looked through. *)
Definition unref (v : Value) : Value :=
  match v with VRef x => x | _ => v end.

(** The addresses [_updates] and [_errors] point into the stores. *)
Definition refs_valid (st : State) : Prop :=
  _updates st < length (dicts st) ∧ _errors st < length (lists st).

(** The state in which the body of an [update_scope] starts: two fresh empty
    collections are current. *)
Definition scope_entry (st : State) : State :=
  mkState (self st) (length (dicts st)) (length (lists st))
    (dicts st ++ [∅]) (lists st ++ [[]]) (notify_enabled st).

(** The nested scopes of the scope-nesting property: scope A mutates [x],
    its inner scope B mutates [y]; the result is A's updates once B is
    closed, and B's updates read before B closes. *)
Definition nested_scopes (x : string) (vx : Value) (y : string) (vy : Value)
    : M (Updates * Updates) :=
  update_scope
    (set x vx;;
     b ← update_scope (set y vy;; gets updates);
     a ← gets updates;
     mret (a, b)).

(** The state an [update_scope] leaves behind when its body ends in [st2]:
    the stashed collections, at the addresses [au] and [ae], receive what
    the scope accumulated and are current again. *)
Definition scope_exit (au ae : addr) (st2 : State) : State :=
  mkState (self st2) au ae
    (alter (λ d, updates st2 ∪ d) au (dicts st2))
    (alter (λ l, l ++ errors st2) ae (lists st2))
    (notify_enabled st2).

(** A key path that is one field name. *)
Definition plain_name (x : string) : Prop := pg.parse x = Ok [KName x].

(** The update record of a change of the metadata field [x]. *)
Definition field_update (x : string) (old new : Value) : FieldUpdate :=
  mkFieldUpdate [KName "metadata"; KName x] old new.

(** A key path whose last token is a field name. *)
Definition ends_in_name (p : KeyPath) : Prop :=
  ∃ n, list.last p = Some (KName n).


(** ** Notions for the round trip of [from_chunks] and [chunk] *)

(** The synthetic name of the modality number [n]. *)
Definition obj_name (n : nat) : string := "obj" +:+ pretty n.

(** The modality objects of a chunk list, in order. *)
Definition modalities (chunks : list Chunk) : list Modality :=
  omap (λ c, match c with CMod o => Some o | CText _ => None end) chunks.

(** A chunk up to trimming: text chunks are compared stripped. *)
Definition trimmed (c : Chunk) : Chunk :=
  match c with
  | CText s => CText (PyStr.strip s)
  | CMod o => CMod o
  end.

(** What [from_chunks] writes for the chunks still to come, [i] being the
    loop index and [n] the number of modalities written so far: each chunk
    but the very first is preceded by the separator, and a modality is
    written as the marker of its synthetic name. *)
Fixpoint fused (separator : string) (i n : nat) (chunks : list Chunk)
    : string :=
  match chunks with
  | [] => EmptyString
  | chunk :: rest =>
      (if 0 <? i then separator else EmptyString)
      +:+ match chunk with
          | CText s => s +:+ fused separator (S i) n rest
          | CMod _ =>
              modality.text_marker (obj_name n)
              +:+ fused separator (S i) (S n) rest
          end
  end.

(** The metadata [from_chunks] builds on top of [metadata] for the chunks
    still to come. *)
Fixpoint recorded (n : nat) (chunks : list Chunk)
    (metadata : gmap string Value) : gmap string Value :=
  match chunks with
  | [] => metadata
  | CText _ :: rest => recorded n rest metadata
  | CMod o :: rest => recorded (S n) rest (<[obj_name n:=maybe_ref o]> metadata)
  end.

(** A text without start delimiter. *)
Definition no_ref_start (s : string) : Prop :=
  PyStr.find modality.REF_START s 0 = None.

(** A text chunk that survives the round trip: it is not blank and holds no
    start delimiter. *)
Definition plain_text (s : string) : Prop :=
  PyStr.strip s ≠ EmptyString ∧ no_ref_start s.

(** Chunk lists that survive the round trip: every text chunk is plain and
    no two text chunks are adjacent. *)
Fixpoint well_formed (chunks : list Chunk) : Prop :=
  match chunks with
  | [] => True
  | CMod _ :: rest => well_formed rest
  | CText s :: rest =>
      plain_text s
      ∧ match rest with CText _ :: _ => False | _ => True end
      ∧ well_formed rest
  end.

(** The hypothesis of the round-trip property as the specification words
    it: no two adjacent chunks are both the empty text. *)
Fixpoint no_adjacent_empty (chunks : list Chunk) : Prop :=
  match chunks with
  | CText s1 :: ((CText s2 :: _) as rest) =>
      ¬ (s1 = EmptyString ∧ s2 = EmptyString) ∧ no_adjacent_empty rest
  | _ :: rest => no_adjacent_empty rest
  | [] => True
  end.

(** The pattern made of the character [a] twice: both delimiters are of
    this form. *)
Abbreviation pat2 a := (String a (String a EmptyString)).

(** Strings made of blanks only. *)
Definition blank (w : string) : Prop := PyStr.lstrip w = EmptyString.

(** Characters that are neither blank nor special in a marker or a key
    path. *)
Definition plain_char (c : ascii) : bool :=
  negb (PyStr.isspace c)
  && negb (bool_decide (c = "{"%char)) && negb (bool_decide (c = "}"%char))
  && negb (bool_decide (c = "."%char)) && negb (bool_decide (c = "["%char))
  && negb (bool_decide (c = "]"%char)).

Fixpoint plain_chars (s : string) : bool :=
  match s with
  | EmptyString => true
  | String c s => plain_char c && plain_chars s
  end.

(** The text between two markers, the name in the marker that follows and
    the object the name stands for. *)
Definition Gap : Type := string * string * Modality.

(** A text seen as gaps, each followed by a marker, and a last gap. *)
Fixpoint gap_text (gs : list Gap) (xf : string) : string :=
  match gs with
  | [] => xf
  | (x, name, _) :: gs => x +:+ modality.text_marker name +:+ gap_text gs xf
  end.

(** The chunks such a text stands for. *)
Fixpoint gap_chunks (gs : list Gap) (xf : string) : list Chunk :=
  match gs with
  | [] => add_text_chunk [] (PyStr.strip xf)
  | (x, _, o) :: gs =>
      add_text_chunk [] (PyStr.strip x) ++ CMod o :: gap_chunks gs xf
  end.

(** The gaps of the text [pre +:+ fused LF i n chunks]. *)
Fixpoint to_gaps (pre : string) (i n : nat) (chunks : list Chunk)
    : list Gap * string :=
  let sep := if 0 <? i then PyStr.LF else EmptyString in
  match chunks with
  | [] => ([], pre)
  | CText s :: rest => to_gaps (pre +:+ sep +:+ s) (S i) n rest
  | CMod o :: rest =>
      let '(gs, xf) := to_gaps EmptyString (S i) (S n) rest in
      ((pre +:+ sep, obj_name n, o) :: gs, xf)
  end.

(** The gaps of a text once it is stripped. *)
Definition strip_gaps (gs : list Gap) (xf : string) : list Gap * string :=
  match gs with
  | [] => ([], PyStr.strip xf)
  | (x, name, o) :: gs => ((PyStr.lstrip x, name, o) :: gs, PyStr.rstrip xf)
  end.

(** Where [ref_end] stands relative to the part [p] of the text that is
    already chunked: at its end, or at the end delimiter that closes it. *)
Definition ref_end_ok (p : string) (ref_end : nat) : Prop :=
  ref_end = String.length p
  ∨ ∃ p0, p = p0 +:+ modality.REF_END ∧ ref_end = String.length p0.

(** A gap the chunker handles as intended: no start delimiter begins in the
    gap, none ends in the name, the name is trimmed, and the lookup of the
    name finds the object. *)
Definition gap_ok (lookup : string → option (Result (Modality + unit)))
    (g : Gap)
    : Prop :=
  let '(x, name, o) := g in
  PyStr.find modality.REF_START (x +:+ "{") 0 = None
  ∧ PyStr.find modality.REF_END (name +:+ "}") 0 = None
  ∧ PyStr.strip name = name
  ∧ lookup name = Some (Ok (inl o)).


(** ** The remaining accessors of [Message] *)

(** What [from_value] accepts: a modality object, a message, or a string. *)
Inductive FromValue :=
| FModality (o : Modality)
| FMessage (m : Message)
| FStr (s : string).

(** [Message.from_value], a class method: a modality becomes a message that
    refers to it under the name [object], a message is returned as it is,
    and anything else is the text of a new message. *)
Definition from_value (c : MessageClass) (value : FromValue)
    : Result Message :=
  match value with
  | FModality o =>
      __init__ c "{{object}}" None None None None {["object" := VMod o]}
  | FMessage m => Ok m
  | FStr s => __init__ c s None None None None ∅
  end.

(** The property [result]: its getter and its setter. *)
Definition result (self : Message) : Result PyAny :=
  get self PATH_RESULT VNone.

Definition result_setter (value : Value) : M unit := set PATH_RESULT value.

(** [Message.__getattr__], called for a name that is no attribute of the
    object: the metadata entry under that very key, a reference wrapper
    looked through; [None] stands for the [AttributeError] raised when the
    key is not in the metadata. *)
Definition __getattr__ (self : Message) (key : string) : option Value :=
  match metadata self !! key with
  | None => None
  | Some v => Some (match v with VRef x => x | _ => v end)
  end.

(** The names that attribute access finds on a message without calling
    [__getattr__]: the constants, fields, properties, methods and private
    attributes that the class [Message] declares. *)
Definition declared_attributes : list string :=
  ["allow_symbolic_assignment"; "PATH_ROOT"; "PATH_TEXT"; "PATH_RESULT";
   "TAG_LM_INPUT"; "TAG_LM_RESPONSE"; "TAG_LM_OUTPUT"; "TAG_RENDERED";
   "TAG_TRANSFORMED"; "text"; "sender"; "metadata"; "tags"; "__init__";
   "from_value"; "set"; "get"; "result"; "_on_init"; "_on_change";
   "modified"; "updates"; "has_errors"; "errors"; "update_scope";
   "apply_updates"; "get_modality"; "referred_modalities"; "chunk";
   "from_chunks"; "from_user"; "from_agent"; "from_system"; "from_memory";
   "tag"; "source"; "root"; "trace"; "lm_responses"; "lm_inputs";
   "lm_outputs"; "last"; "lm_response"; "lm_input"; "lm_output";
   "natural_language_format"; "__eq__"; "__hash__"; "__getattr__";
   "_source"; "_updates"; "_errors"].

(** Whether normal attribute lookup finds the name; [inherited] tells it
    for the names that the base classes, which are outside the repository,
    declare.  Python calls [__getattr__] only when this fails. *)
Definition has_attribute (inherited : string → bool) (name : string)
    : bool :=
  bool_decide (name ∈ declared_attributes) || inherited name.

(** The role tests [from_user], [from_agent], [from_system] and
    [from_memory]. *)
Definition from_user (self : Message) : bool := isinstance self cUserMessage.
Definition from_agent (self : Message) : bool := isinstance self cAIMessage.
Definition from_system (self : Message) : bool :=
  isinstance self cSystemMessage.
Definition from_memory (self : Message) : bool :=
  isinstance self cMemoryRecord.

(** The setter of the property [source]: a plain attribute assignment. *)
Definition source_setter (source : option addr) (self : Message) : Message :=
  mkMessage (cls self) (text self) (sender self) (metadata self) (tags self)
    source.

(** The accessors fixed to the well-known tags. *)
Definition lm_responses (fuel : nat) (h : Heap) (self : addr) :=
  trace fuel h self (Some TAG_LM_RESPONSE).
Definition lm_inputs (fuel : nat) (h : Heap) (self : addr) :=
  trace fuel h self (Some TAG_LM_INPUT).
Definition lm_outputs (fuel : nat) (h : Heap) (self : addr) :=
  trace fuel h self (Some TAG_LM_OUTPUT).
Definition lm_response (fuel : nat) (h : Heap) (self : addr) :=
  last fuel h self TAG_LM_RESPONSE.
Definition lm_input (fuel : nat) (h : Heap) (self : addr) :=
  last fuel h self TAG_LM_INPUT.
Definition lm_output (fuel : nat) (h : Heap) (self : addr) :=
  last fuel h self TAG_LM_OUTPUT.

(** A set of addresses that following [source] never leaves: every member
    is a message of the store whose source is again a member. *)
Definition source_closed (h : Heap) (P : addr → Prop) : Prop :=
  ∀ a, P a → ∃ m s, h !! a = Some m ∧ source m = Some s ∧ P s.


(** A start delimiter at or after the position [from] after which no end
    delimiter comes. *)
Definition unclosed_from (text : string) (from : nat) : Prop :=
  ∃ ref_start,
    from ≤ ref_start
    ∧ PyStr.slice ref_start (ref_start + String.length modality.REF_START)
        text = modality.REF_START
    ∧ PyStr.find modality.REF_END text
        (ref_start + String.length modality.REF_START) = None.

(** The same as a test, from the start of the text. *)
Definition unclosed (text : string) : bool :=
  existsb
    (λ ref_start,
       bool_decide
         (PyStr.slice ref_start
            (ref_start + String.length modality.REF_START) text
          = modality.REF_START)
       && bool_decide
            (PyStr.find modality.REF_END text
               (ref_start + String.length modality.REF_START) = None))
    (seq 0 (String.length text)).

(** A string without square brackets. *)
Fixpoint no_brackets (s : string) : bool :=
  match s with
  | EmptyString => true
  | String c s =>
      negb (bool_decide (c = "["%char)) && negb (bool_decide (c = "]"%char))
      && no_brackets s
  end.

(** The messages stored at a list of addresses. *)
Definition messages_at (h : Heap) (l : list addr) : list Message :=
  omap (λ a, h !! a) l.

(** The outcome of [get] at the first of the messages where it is not
    [None]: what the nearest message holds under the name, or the exception
    of the read. *)
Fixpoint nearest_holder (msgs : list Message) (var_name : string)
    : option (Result PyAny) :=
  match msgs with
  | [] => None
  | m :: rest =>
      match get m var_name VNone with
      | Ok (AVal VNone) => nearest_holder rest var_name
      | r => Some r
      end
  end.

(** ** Evaluation by scoring *)

Module Scoring.
Section Scoring.
(** Examples, outputs and scores are opaque here; [Base] is the state the
    base class [Evaluation] keeps, [super_reset] its [_reset], and [score]
    the abstract method every scoring evaluation implements. *)
Context {Example Output Score Base : Type}.
Variable super_reset : Base → Base.
Variable score : Example → Output → Score.

Record Scoring := mkScoring {
  base : Base;
  _scored : list (Example * Output * Score)
}.

(** The properties [scored] and [num_scored]. *)
Definition scored (self : Scoring) : list (Example * Output * Score) :=
  _scored self.
Definition num_scored (self : Scoring) : nat := length (_scored self).

(** [Scoring._reset] *)
Definition _reset (self : Scoring) : Scoring :=
  mkScoring (super_reset (base self)) [].

(** [Scoring.audit] *)
Definition audit (example : Example) (output : Output) (self : Scoring)
    : Scoring :=
  let score := score example output in
  mkScoring (base self) (_scored self ++ [(example, output, score)]).

End Scoring.
End Scoring.

(** * Properties *)

(** ** Equality and hashing *)

Lemma issubclass_same c : issubclass c c = true.
Proof. unfold issubclass. rewrite (bool_decide_true (c = c)); [|done]. apply orb_true_r. Qed.

Lemma issubclass_base c : issubclass c cMessage = true.
Proof. done. Qed.

Lemma issubclass_variant c : c ≠ cMessage → issubclass cMessage c = false.
Proof.
  intros Hc. unfold issubclass.
  rewrite !bool_decide_false; [done|congruence..].
Qed.

Lemma eq_fields (self other : Message) :
  isinstance other (cls self) = true →
  __eq__ self (PMsg other) = true ↔
    text self = text other ∧ sender self = sender other
    ∧ metadata self = metadata other.
Proof.
  intros Hi. unfold __eq__. rewrite Hi.
  rewrite !andb_true_iff, !bool_decide_eq_true. tauto.
Qed.

(** C8.  Compared with a string, a message is equal exactly when its text is
    the string; compared with a message that is an instance of its own class,
    exactly when text, sender and metadata agree, and never when the other
    message is not such an instance; so [UserMessage('hi') == 'hi'] holds,
    [UserMessage('hi') == AIMessage('hi')] does not, and two [AIMessage]
    objects with the same fields are equal.  The hash of a message is the
    hash of its text: messages with equal texts hash equally, whatever
    their sender and metadata, and a message equal to a string hashes like
    the string. *)
Theorem eq_hash_contract (hash : string → Z) :
  (∀ m s, __eq__ m (PStr s) = true ↔ text m = s)
  ∧ (∀ m o, cls o = cls m →
       (__eq__ m (PMsg o) = true ↔
          text m = text o ∧ sender m = sender o ∧ metadata m = metadata o))
  ∧ (∀ m o, isinstance o (cls m) = false → __eq__ m (PMsg o) = false)
  ∧ __eq__ (UserMessage "hi") (PStr "hi") = true
  ∧ __eq__ (UserMessage "hi") (PMsg (AIMessage "hi")) = false
  ∧ (∀ a b, cls a = cAIMessage → cls b = cAIMessage →
       text a = text b → sender a = sender b → metadata a = metadata b →
       __eq__ a (PMsg b) = true)
  ∧ (∀ m1 m2, text m1 = text m2 → __hash__ hash m1 = __hash__ hash m2)
  ∧ (∀ m, __hash__ hash m = hash (text m))
  ∧ (∀ m s, __eq__ m (PStr s) = true → __hash__ hash m = hash s).
Proof.
  split_and!.
  - intros m s. simpl. apply bool_decide_eq_true.
  - intros m o Hc. apply eq_fields. unfold isinstance. rewrite Hc.
    apply issubclass_same.
  - intros m o Hi. simpl. by rewrite Hi.
  - done.
  - done.
  - intros a b Ha Hb Ht Hs Hm. apply eq_fields; [|done].
    unfold isinstance. rewrite Ha, Hb. done.
  - intros m1 m2 Ht. unfold __hash__. by rewrite Ht.
  - done.
  - intros m s Ht%bool_decide_eq_true. unfold __hash__. by rewrite Ht.
Qed.

Lemma eq_hash_contract_witness :
  __eq__ (new cAIMessage "hi" {["k" := VInt 1]})
    (PMsg (new cAIMessage "hi" {["k" := VInt 1]})) = true
  ∧ __hash__ (λ s, Z.of_nat (String.length s)) (UserMessage "hi")
    = __hash__ (λ s, Z.of_nat (String.length s)) (AIMessage "hi").
Proof.
  pose proof (eq_hash_contract (λ s, Z.of_nat (String.length s)))
    as (_ & _ & _ & _ & _ & Hai & Hhash & _).
  split.
  - apply Hai; reflexivity.
  - apply Hhash. reflexivity.
Defined.

(** C10, as amended.  The method [__eq__] is not symmetric across the
    class hierarchy: called on a message of the base class with a
    role-variant message of the same text, sender and metadata it returns
    true, and called the other way round it returns false.  The operator
    does not show it: the class of the variant being a subclass of the base
    class, [m == u] evaluates the method of [u] first, so that [m == u] and
    [u == m] are both false. *)
Theorem eq_not_symmetric (m u : Message) :
  cls m = cMessage → cls u ≠ cMessage →
  text m = text u → sender m = sender u → metadata m = metadata u →
  __eq__ m (PMsg u) = true ∧ __eq__ u (PMsg m) = false
  ∧ eq_op m u = false ∧ eq_op u m = false.
Proof.
  intros Hm Hu Ht Hs Hmd.
  assert (__eq__ u (PMsg m) = false) as Hum.
  { simpl. unfold isinstance. rewrite Hm.
    by rewrite (issubclass_variant _ Hu). }
  split_and!.
  - apply eq_fields; [|done]. unfold isinstance. rewrite Hm.
    apply issubclass_base.
  - done.
  - unfold eq_op. rewrite Hm, issubclass_base, bool_decide_true by done.
    done.
  - unfold eq_op. rewrite Hm, (issubclass_variant _ Hu), andb_false_r.
    done.
Qed.

Lemma eq_not_symmetric_witness :
  __eq__ (mkMessage cMessage "hi" "User" ∅ [] None) (PMsg (UserMessage "hi"))
    = true
  ∧ __eq__ (UserMessage "hi") (PMsg (mkMessage cMessage "hi" "User" ∅ [] None))
    = false
  ∧ eq_op (mkMessage cMessage "hi" "User" ∅ [] None) (UserMessage "hi")
    = false
  ∧ eq_op (UserMessage "hi") (mkMessage cMessage "hi" "User" ∅ [] None)
    = false.
Proof.
  apply (eq_not_symmetric (mkMessage cMessage "hi" "User" ∅ [] None)
           (UserMessage "hi")); [reflexivity|discriminate|reflexivity..].
Defined.

(** The counterexample to C10 as stated: for a message of the base class
    and a user message with the same text, sender and metadata, the
    comparison [m == u] is false, as is [u == m]. *)
Lemma eq_operator_base_variant :
  text (mkMessage cMessage "hi" "User" ∅ [] None) = text (UserMessage "hi")
  ∧ sender (mkMessage cMessage "hi" "User" ∅ [] None)
    = sender (UserMessage "hi")
  ∧ metadata (mkMessage cMessage "hi" "User" ∅ [] None)
    = metadata (UserMessage "hi")
  ∧ eq_op (mkMessage cMessage "hi" "User" ∅ [] None) (UserMessage "hi")
    = false
  ∧ eq_op (UserMessage "hi") (mkMessage cMessage "hi" "User" ∅ [] None)
    = false.
Proof. by split_and!. Qed.

(** ** Tagging *)

Ltac unfold_M :=
  unfold mbind, M_bind, mret, M_ret, gets, modify, raise, try_finally in *;
  simpl in *.

(** With notification switched on, an append to [tags] does reach
    [_on_change]: the switch in [tag] is what keeps tags out of the updates. *)
Lemma tags_append_notifies st t :
  notify_enabled st = true →
  ∃ st', tags_append t st = (Ok (), st')
    ∧ dicts st' =
        alter (λ d, <[[KName "tags";
                        KIndex (Z.of_nat (length (tags (self st))))]
                       := mkFieldUpdate
                            [KName "tags";
                             KIndex (Z.of_nat (length (tags (self st))))]
                            VMissing (VStr t)]> ∅ ∪ d)
          (_updates st) (dicts st).
Proof.
  intros Hn. eexists. split.
  - unfold tags_append, notify, _on_change. unfold_M. rewrite Hn. simpl.
    reflexivity.
  - simpl. unfold with_dicts. simpl. reflexivity.
Qed.

Lemma tags_append_silent st t :
  notify_enabled st = false →
  tags_append t st
  = (Ok (), with_self (λ m, set_tags (tags m ++ [t]) m) st).
Proof.
  intros Hn. unfold tags_append, notify. unfold_M. by rewrite Hn.
Qed.

Lemma tag_run st t :
  tag t st =
    (Ok (),
     if bool_decide (t ∈ tags (self st)) then st
     else with_self (λ m, set_tags (tags m ++ [t]) m) st).
Proof.
  unfold tag, notify_on_change, tags_append, notify. unfold_M.
  case_bool_decide as Hin; [done|]. by destruct st.
Qed.

(** C7.  [tag] appends the tag only when it is not yet among the tags, and
    touches nothing else: the stores of update dictionaries and error
    lists, the addresses of the current collections (hence the updates of
    the open scope), the notification switch, and the text, sender and
    metadata of the message are what they were.  Tagging twice is tagging
    once. *)
Theorem tag_exclusion (st : State) (t : string) :
  ∃ st',
    tag t st = (Ok (), st')
    ∧ tags (self st') =
        (if bool_decide (t ∈ tags (self st)) then tags (self st)
         else tags (self st) ++ [t])
    ∧ dicts st' = dicts st ∧ lists st' = lists st
    ∧ _updates st' = _updates st ∧ _errors st' = _errors st
    ∧ updates st' = updates st
    ∧ notify_enabled st' = notify_enabled st
    ∧ text (self st') = text (self st)
    ∧ sender (self st') = sender (self st)
    ∧ metadata (self st') = metadata (self st)
    ∧ tag t st' = (Ok (), st').
Proof.
  eexists. split; [apply tag_run|].
  case_bool_decide as Hin.
  - split_and!; try done. rewrite tag_run. by rewrite bool_decide_true.
  - split_and!; try done. rewrite tag_run. simpl.
    rewrite bool_decide_true; [done|]. set_solver.
Qed.

(** Duplicates stay suppressed: a duplicate-free tag list remains so. *)
Lemma tag_NoDup st t st' :
  tag t st = (Ok (), st') → NoDup (tags (self st)) → NoDup (tags (self st')).
Proof.
  rewrite tag_run. intros [= <-] Hnd. case_bool_decide as Hin; [done|].
  simpl. apply NoDup_app. split_and!; [done| |apply NoDup_singleton].
  intros x Hx ->%list_elem_of_singleton. done.
Qed.

(** ** Modality lookup along the source chain *)

(** The flag [from_message_chain] is passed along and never read. *)
Lemma get_modality_flag_unused {D} fuel h self var_name (d : D) b1 b2 :
  get_modality fuel h self var_name d b1
  = get_modality fuel h self var_name d b2.
Proof.
  revert self. induction fuel as [|fuel IH]; intros self; [done|].
  simpl. destruct (get self var_name VNone) as [[|[]]|]; try done.
  destruct (source self) as [a|]; [|done].
  destruct (h !! a) as [src|]; simpl; [apply IH|done].
Qed.

(** A message with nothing (or [None]) under the name hands the lookup to
    its source. *)
Lemma get_modality_forwards {D} fuel h self a src var_name (d : D) b :
  get self var_name VNone = Ok (AVal VNone) →
  source self = Some a → h !! a = Some src →
  get_modality (S fuel) h self var_name d b
  = get_modality fuel h src var_name d b.
Proof. intros Hg Hs Ha. simpl. by rewrite Hg, Hs, Ha. Qed.

Lemma get_modality_own {D} fuel h self var_name o (d : D) b :
  get self var_name VNone = Ok (AVal (VMod o)) →
  get_modality (S fuel) h self var_name d b = Some (Ok (inl o)).
Proof. intros Hg. simpl. by rewrite Hg. Qed.

(** With chain search the modality of the parent is found through the
    child, whatever the default. *)
Lemma get_modality_parent {D} h child a parent var_name o (d : D) b :
  get child var_name VNone = Ok (AVal VNone) →
  source child = Some a → h !! a = Some parent →
  get parent var_name VNone = Ok (AVal (VMod o)) →
  get_modality 2 h child var_name d b = Some (Ok (inl o)).
Proof.
  intros Hc Hs Ha Hp.
  rewrite (get_modality_forwards _ _ _ _ _ _ _ _ Hc Hs Ha).
  by apply get_modality_own.
Qed.

(** C1.  The child holds nothing under [obj0], its source holds a modality
    there.  The lookup returns the object of the source with chain search
    enabled, and returns that same object, not the default, with chain
    search disabled: the method never reads the flag. *)
Theorem get_modality_chain_flag :
  let img := mkModality "img" false in
  let parent :=
    mkMessage cUserMessage "p" "User" {["obj0" := VMod img]} [] None in
  let child := mkMessage cAIMessage "c" "AI" ∅ [] (Some 0) in
  get child "obj0" VNone = Ok (AVal VNone)
  ∧ get_modality 2 [parent] child "obj0" (VStr "default") true
    = Some (Ok (inl img))
  ∧ get_modality 2 [parent] child "obj0" (VStr "default") false
    = Some (Ok (inl img)).
Proof.
  intros img parent child.
  assert (get child "obj0" VNone = Ok (AVal VNone)) as Hc by reflexivity.
  assert (get parent "obj0" VNone = Ok (AVal (VMod img))) as Hp
    by reflexivity.
  split_and!; [done|..];
    by apply (get_modality_parent [parent] child 0 parent).
Qed.

(** ** Source-chain traversal *)

Lemma chain_length_pos h a l : chain h (Some a) l → 0 < length l.
Proof. inversion 1; simpl; lia. Qed.

Lemma root_chain h a l fuel :
  chain h (Some a) l → length l ≤ fuel → root fuel h a = list.last l.
Proof.
  revert a l. induction fuel as [|fuel IH]; intros a l Hc Hf.
  { apply chain_length_pos in Hc. lia. }
  inversion Hc as [|a' m l' Ha Hc' Heq]; subst. simpl in *. rewrite Ha. simpl.
  destruct (source m) as [s|] eqn:Hs.
  - rewrite (IH s l' Hc') by lia. inversion Hc'; subst. done.
  - inversion Hc'; subst. done.
Qed.

Lemma chain_last_is_root h cur l r :
  chain h cur l → list.last l = Some r →
  source_of h r = None ∧ ∀ x, x ∈ l → source_of h x = None → x = r.
Proof.
  induction 1 as [|a m l Ha Hc IH]; [done|].
  destruct l as [|b l'].
  - intros [= <-]. inversion Hc as [Hs|]; subst.
    unfold source_of. rewrite Ha. simpl. split; [done|].
    by intros x ->%list_elem_of_singleton.
  - intros Hl. change (list.last (b :: l') = Some r) in Hl.
    destruct (IH Hl) as [Hr Hu]. split; [done|].
    intros x [->|Hx]%elem_of_cons Hx0; [|by apply Hu].
    inversion Hc; subst. unfold source_of in Hx0. rewrite Ha in Hx0.
    simpl in Hx0. congruence.
Qed.

Lemma has_tag_lookup h t a m :
  h !! a = Some m → has_tag h t a = bool_decide (t ∈ tags m).
Proof. intros Ha. unfold has_tag. by rewrite Ha. Qed.

Lemma trace_loop_chain h tag cur l fuel acc :
  chain h cur l → length l < fuel →
  trace_loop fuel h tag cur acc
  = Some (reverse
            (acc ++ match tag with
                    | None => l
                    | Some t => filter (has_tag h t) l
                    end)).
Proof.
  intros Hc. revert fuel acc.
  induction Hc as [|a m l Ha Hc IH]; intros fuel acc Hf.
  - destruct fuel; [simpl in Hf; lia|]. simpl.
    destruct tag; by rewrite ?filter_nil, app_nil_r.
  - destruct fuel as [|fuel]; [simpl in Hf; lia|]. simpl in *.
    rewrite Ha. simpl. rewrite IH by lia. f_equal. f_equal.
    destruct tag as [t|].
    + rewrite filter_cons, (has_tag_lookup _ _ _ _ Ha).
      case_bool_decide as Ht.
      * rewrite decide_True by done. by rewrite <- app_assoc.
      * rewrite decide_False; [done|]. by intros ?.
    + by rewrite <- app_assoc.
Qed.

Lemma last_loop_chain h t cur l fuel :
  chain h cur l → length l < fuel →
  last_loop fuel h t cur = Some (head (filter (has_tag h t) l)).
Proof.
  intros Hc. revert fuel.
  induction Hc as [|a m l Ha Hc IH]; intros fuel Hf.
  - destruct fuel; [simpl in Hf; lia|]. done.
  - destruct fuel as [|fuel]; [simpl in Hf; lia|]. simpl in *.
    rewrite Ha. simpl. rewrite filter_cons, (has_tag_lookup _ _ _ _ Ha).
    case_bool_decide as Ht.
    + by rewrite decide_True.
    + rewrite decide_False; [|by intros ?]. apply IH. lia.
Qed.

Lemma head_filter_unique {A} (P : A → Prop) `{∀ x, Decision (P x)} l x :
  x ∈ l → P x → (∀ y, y ∈ l → P y → y = x) → head (filter P l) = Some x.
Proof.
  induction l as [|z l IH]; intros Hx HP Hu; [by apply elem_of_nil in Hx|].
  rewrite filter_cons. destruct (decide (P z)) as [Hz|Hz].
  - simpl. f_equal. apply Hu; [left|done].
  - apply IH; [|done|].
    + apply elem_of_cons in Hx as [->|]; done.
    + intros y Hy. apply Hu. by right.
Qed.

Lemma head_filter_none {A} (P : A → Prop) `{∀ x, Decision (P x)} l :
  (∀ y, y ∈ l → ¬ P y) → head (filter P l) = None.
Proof.
  induction l as [|z l IH]; intros Hn; [done|].
  rewrite filter_cons, decide_False; [|apply Hn; left].
  apply IH. intros y Hy. apply Hn. by right.
Qed.

(** C5.  Let [l] be the source chain of a message, nearest first, and let
    the fuel exceed its length.  [trace] returns the chain oldest first
    (with a tag: its tagged members, oldest first); [root] returns the last
    member of the chain, which is its only member without source; [last]
    returns the nearest member carrying the tag: the one carrying it when
    only one does, and none when no member carries it. *)
Theorem chain_ordering (h : Heap) (self : addr) (l : list addr) (fuel : nat) :
  chain h (Some self) l → length l < fuel →
  trace fuel h self None = Some (reverse l)
  ∧ (∀ t, trace fuel h self (Some t)
          = Some (reverse (filter (has_tag h t) l)))
  ∧ (∃ r, root fuel h self = Some r ∧ list.last l = Some r
          ∧ source_of h r = None
          ∧ ∀ x, x ∈ l → source_of h x = None → x = r)
  ∧ (∀ t, last fuel h self t = Some (head (filter (has_tag h t) l)))
  ∧ (∀ t x, x ∈ l → has_tag h t x →
            (∀ y, y ∈ l → has_tag h t y → y = x) →
            last fuel h self t = Some (Some x))
  ∧ (∀ t, (∀ y, y ∈ l → ¬ has_tag h t y) → last fuel h self t = Some None).
Proof.
  intros Hc Hf. split_and!.
  - unfold trace. by rewrite (trace_loop_chain _ None _ l).
  - intros t. unfold trace. by rewrite (trace_loop_chain _ (Some t) _ l).
  - assert (is_Some (list.last l)) as [r Hr].
    { apply chain_length_pos in Hc. destruct l; [simpl in Hc; lia|].
      apply last_is_Some. done. }
    exists r. rewrite (root_chain h self l) by (done || lia).
    split_and!; [done..| |]; by eapply chain_last_is_root.
  - intros t. by apply last_loop_chain.
  - intros t x Hx Ht Hu. unfold last. rewrite (last_loop_chain _ _ _ l) by done.
    f_equal. by apply head_filter_unique.
  - intros t Hn. unfold last. rewrite (last_loop_chain _ _ _ l) by done.
    f_equal. by apply head_filter_none.
Qed.

Lemma chain_ordering_witness :
  let root_ := mkMessage cUserMessage "q" "User" ∅ [] None in
  let m1 := mkMessage cAIMessage "a1" "AI" ∅ ["lm-response"] (Some 0) in
  let m2 := mkMessage cAIMessage "a2" "AI" ∅ [] (Some 1) in
  let m3 := mkMessage cAIMessage "a3" "AI" ∅ [] (Some 2) in
  let h := [root_; m1; m2; m3] in
  trace 5 h 3 None = Some [0; 1; 2; 3]
  ∧ root 5 h 3 = Some 0
  ∧ last 5 h 3 "lm-response" = Some (Some 1)
  ∧ last 5 h 3 "lm-input" = Some None.
Proof.
  intros root_ m1 m2 m3 h.
  assert (chain h (Some 3) [3; 2; 1; 0]) as Hc.
  { repeat (eapply chain_cons; [reflexivity|]; simpl). apply chain_nil. }
  destruct (chain_ordering h 3 [3; 2; 1; 0] 5 Hc ltac:(simpl; lia))
    as (Ht & _ & (r & Hr & Hl & _) & Hlast & _).
  split_and!.
  - exact Ht.
  - rewrite Hr. rewrite <- Hl. reflexivity.
  - rewrite Hlast. reflexivity.
  - rewrite Hlast. reflexivity.
Defined.

(** ** Update scopes *)

Lemma update_scope_run {A} (body : M A) (st : State) :
  update_scope body st =
    (let '(r, st2) := body (scope_entry st) in
     (r, scope_exit (_updates st) (_errors st) st2)).
Proof.
  unfold update_scope, scope_entry, scope_exit. unfold_M.
  unfold with_errors_ref, with_updates_ref, with_lists, with_dicts. simpl.
  destruct (body _) as [r st2]. reflexivity.
Qed.

Lemma scope_entry_fresh st :
  updates (scope_entry st) = ∅ ∧ errors (scope_entry st) = [].
Proof.
  unfold updates, errors, scope_entry. simpl.
  by rewrite !list_lookup_middle.
Qed.

Lemma scope_exit_merge au ae st2 :
  au < length (dicts st2) → ae < length (lists st2) →
  updates (scope_exit au ae st2)
  = updates st2 ∪ default ∅ (dicts st2 !! au)
  ∧ errors (scope_exit au ae st2)
    = default [] (lists st2 !! ae) ++ errors st2.
Proof.
  intros Hu He. unfold updates at 1, errors at 1, scope_exit. simpl.
  rewrite !list_lookup_alter_eq.
  apply lookup_lt_is_Some in Hu as [d ->], He as [l ->]. done.
Qed.

(** A [set] that changes the value of a metadata field named by a plain
    name stores the value and, when notification is on, records the change
    in the current dictionary of updates. *)
Lemma set_field st x v :
  plain_name x → x ≠ PATH_TEXT → v ≠ VMissing →
  metadata (self st) !! x ≠ Some v → notify_enabled st = true →
  set x v st =
    (Ok (),
     with_dicts
       (alter (λ d, {[ [KName "metadata"; KName x] :=
                        field_update x
                          (default VMissing (metadata (self st) !! x)) v ]}
                    ∪ d) (_updates st))
       (with_self (set_metadata (<[x:=v]> (metadata (self st)))) st)).
Proof.
  intros Hx Ht Hv Hold Hn. unfold set. rewrite decide_False by done.
  unfold metadata_rebind, pg.rebind. rewrite Hx.
  unfold pg.rebind_path. simpl.
  assert (is_missing v = false) as -> by by destruct v.
  simpl. rewrite (bool_decide_false (_ = v)).
  2:{ destruct (metadata (self st) !! x); simpl; congruence. }
  simpl. unfold notify. simpl. rewrite Hn. simpl.
  unfold _on_change. unfold_M. unfold field_update.
  rewrite insert_empty. by destruct (metadata (self st) !! x).
Qed.

Lemma bind_ok {A B} (c : M A) (f : A → M B) st a st' :
  c st = (Ok a, st') → (c ≫= f) st = f a st'.
Proof. intros Hc. unfold mbind, M_bind. by rewrite Hc. Qed.

Lemma alter_last {A} (f : A → A) (l : list A) (x : A) :
  alter f (length l) (l ++ [x]) = l ++ [f x].
Proof. rewrite <- (Nat.add_0_r (length l)). by rewrite alter_app_r. Qed.

Lemma lookup_snoc2_0 {A} (l : list A) x y : (l ++ [x; y]) !! length l = Some x.
Proof. by rewrite list_lookup_middle. Qed.

Lemma lookup_snoc2_1 {A} (l : list A) x y :
  (l ++ [x; y]) !! S (length l) = Some y.
Proof.
  rewrite lookup_app_r by lia.
  by replace (S (length l) - length l) with 1 by lia.
Qed.

Lemma alter_snoc2_0 {A} (f : A → A) (l : list A) x y :
  alter f (length l) (l ++ [x; y]) = l ++ [f x; y].
Proof. rewrite <- (Nat.add_0_r (length l)). by rewrite alter_app_r. Qed.

Lemma set_field_at m u e D L x v :
  plain_name x → x ≠ PATH_TEXT → v ≠ VMissing → metadata m !! x ≠ Some v →
  set x v (mkState m u e D L true) =
    (Ok (),
     mkState (set_metadata (<[x:=v]> (metadata m)) m) u e
       (alter (λ d, {[ [KName "metadata"; KName x] :=
                        field_update x (default VMissing (metadata m !! x)) v ]}
                    ∪ d) u D)
       L true).
Proof. intros. by rewrite set_field. Qed.

Lemma update_scope_at {A} (body : M A) m u e D L n r st2 :
  body (mkState m (length D) (length L) (D ++ [∅]) (L ++ [[]]) n) = (r, st2) →
  update_scope body (mkState m u e D L n) = (r, scope_exit u e st2).
Proof.
  intros Hbody. rewrite update_scope_run. unfold scope_entry. simpl.
  by rewrite Hbody.
Qed.

Lemma nested_scopes_run st x vx y vy :
  refs_valid st → notify_enabled st = true →
  plain_name x → plain_name y → x ≠ PATH_TEXT → y ≠ PATH_TEXT → x ≠ y →
  vx ≠ VMissing → vy ≠ VMissing →
  metadata (self st) !! x ≠ Some vx → metadata (self st) !! y ≠ Some vy →
  let px := [KName "metadata"; KName x] in
  let py := [KName "metadata"; KName y] in
  let ux := field_update x (default VMissing (metadata (self st) !! x)) vx in
  let uy := field_update y (default VMissing (metadata (self st) !! y)) vy in
  let a : Updates := {[py := uy]} ∪ {[px := ux]} in
  let b : Updates := {[py := uy]} in
  ∃ st', nested_scopes x vx y vy st = (Ok (a, b), st')
    ∧ _updates st' = _updates st
    ∧ updates st' = a ∪ updates st
    ∧ dicts st' !! length (dicts st) = Some a
    ∧ dicts st' !! S (length (dicts st)) = Some b.
Proof.
  intros [Hu He] Hn Hx Hy Hxt Hyt Hxy Hvx Hvy Hox Hoy px py ux uy a b.
  destruct st as [m u e D L n]. simpl in *. subst n.
  set (m1 := set_metadata (<[x:=vx]> (metadata m)) m).
  set (m2 := set_metadata (<[y:=vy]> (metadata m1)) m1).
  (* scope A after the mutation of x *)
  set (stA1 := mkState m1 (length D) (length L) (D ++ [{[px := ux]}])
                 (L ++ [[]]) true).
  assert (set x vx (mkState m (length D) (length L) (D ++ [∅]) (L ++ [[]]) true)
          = (Ok (), stA1)) as HsetA.
  { rewrite set_field_at by done. fold m1 px ux.
    by rewrite alter_last, (right_id_L ∅ (∪)). }
  (* scope B after the mutation of y *)
  set (stB1 := mkState m2 (S (length D)) (S (length L))
                 (D ++ [{[px := ux]}; b]) (L ++ [[]; []]) true).
  assert (set y vy
            (mkState m1 (length (D ++ [{[px := ux]}])) (length (L ++ [[]]))
               ((D ++ [{[px := ux]}]) ++ [∅]) ((L ++ [[]]) ++ [[]]) true)
          = (Ok (), stB1)) as HsetB.
  { rewrite set_field_at; [|done..|simpl; by rewrite lookup_insert_ne].
    fold m2. simpl. rewrite lookup_insert_ne by done. fold py uy.
    rewrite alter_last, (right_id_L ∅ (∪)), !length_app, <- !app_assoc.
    simpl. by rewrite !Nat.add_1_r. }
  (* B is closed: its updates are merged into the dictionary of A *)
  set (stA2 := mkState m2 (length D) (length L) (D ++ [a; b])
                 (L ++ [[]; []]) true).
  assert (update_scope (set y vy;; gets updates) stA1 = (Ok b, stA2)) as HB.
  { unfold stA1. erewrite update_scope_at.
    2:{ erewrite bind_ok; [|exact HsetB]. unfold gets. reflexivity. }
    f_equal.
    { f_equal. unfold updates, stB1. simpl. by rewrite lookup_snoc2_1. }
    unfold scope_exit, stA2, stB1, updates, errors. simpl.
    rewrite !lookup_snoc2_1. simpl.
    by rewrite !alter_snoc2_0. }
  (* the body of A as a whole *)
  assert ((set x vx;;
           b ← update_scope (set y vy;; gets updates);
           a ← gets updates; mret (a, b))
            (mkState m (length D) (length L) (D ++ [∅]) (L ++ [[]]) true)
          = (Ok (a, b), stA2)) as HA.
  { erewrite bind_ok; [|exact HsetA]. erewrite bind_ok; [|exact HB].
    unfold_M. f_equal. f_equal. f_equal. unfold updates, stA2. simpl.
    by rewrite lookup_snoc2_0. }
  unfold nested_scopes. erewrite update_scope_at; [|exact HA].
  eexists. split; [reflexivity|].
  apply lookup_lt_is_Some in Hu as Hd0. destruct Hd0 as [d0 Hd0].
  unfold scope_exit, updates, stA2. simpl.
  rewrite lookup_snoc2_0. simpl. rewrite !alter_app_l by done.
  split_and!.
  - done.
  - rewrite lookup_app_l by (by rewrite length_alter).
    by rewrite list_lookup_alter_eq, Hd0.
  - rewrite lookup_app_r by (by rewrite length_alter).
    by rewrite length_alter, Nat.sub_diag.
  - rewrite lookup_app_r by (rewrite length_alter; lia).
    rewrite length_alter. by replace (S (length D) - length D) with 1 by lia.
Qed.

(** C6.  On entry the scope makes two fresh empty collections current.
    Whatever the body does and however it ends, normally or by raising, the
    scope ends the same way and puts the stashed collections back; the
    stashed dictionary then holds the updates of the scope merged over its
    own entries, and the stashed list holds its errors followed by those of
    the scope.  For scope A that mutates [x] and whose inner scope B mutates
    [y], the updates of A once B is closed hold both records, the updates
    read in B hold the record of [y] only, and the dictionary objects of A
    and B still hold exactly these after both scopes are closed. *)
Theorem update_scope_nesting :
  (∀ st, updates (scope_entry st) = ∅ ∧ errors (scope_entry st) = [])
  ∧ (∀ A (body : M A) st r st2,
       body (scope_entry st) = (r, st2) →
       ∃ st3, update_scope body st = (r, st3)
         ∧ _updates st3 = _updates st ∧ _errors st3 = _errors st
         ∧ (_updates st < length (dicts st2) →
            _errors st < length (lists st2) →
            updates st3 = updates st2 ∪ default ∅ (dicts st2 !! _updates st)
            ∧ errors st3
              = default [] (lists st2 !! _errors st) ++ errors st2))
  ∧ (∀ st x vx y vy,
       refs_valid st → notify_enabled st = true →
       plain_name x → plain_name y → x ≠ PATH_TEXT → y ≠ PATH_TEXT →
       x ≠ y → vx ≠ VMissing → vy ≠ VMissing →
       metadata (self st) !! x ≠ Some vx →
       metadata (self st) !! y ≠ Some vy →
       ∃ a b st',
         nested_scopes x vx y vy st = (Ok (a, b), st')
         ∧ dom a = {[ [KName "metadata"; KName x];
                      [KName "metadata"; KName y] ]}
         ∧ dom b = {[ [KName "metadata"; KName y] ]}
         ∧ updates st' = a ∪ updates st
         ∧ dicts st' !! length (dicts st) = Some a
         ∧ dicts st' !! S (length (dicts st)) = Some b).
Proof.
  split_and!.
  - apply scope_entry_fresh.
  - intros A body st r st2 Hbody. eexists. split.
    { rewrite update_scope_run, Hbody. reflexivity. }
    split_and!; [done..|]. intros Hu He. by apply scope_exit_merge.
  - intros st x vx y vy Hr Hn Hx Hy Hxt Hyt Hxy Hvx Hvy Hox Hoy.
    destruct (nested_scopes_run st x vx y vy) as (st' & Hrun & _ & Hup & Ha & Hb);
      try done.
    eexists _, _, st'. split; [exact Hrun|].
    split_and!; [| |done..].
    + by rewrite dom_union_L, !dom_singleton_L, (comm_L (∪)).
    + by rewrite dom_singleton_L.
Qed.

Lemma update_scope_nesting_witness :
  let st0 := _on_init (UserMessage "hi") in
  (∃ a b st',
     nested_scopes "x" (VInt 1) "y" (VInt 2) st0 = (Ok (a, b), st')
     ∧ dom a = {[ [KName "metadata"; KName "x"];
                  [KName "metadata"; KName "y"] ]}
     ∧ dom b = {[ [KName "metadata"; KName "y"] ]})
  ∧ (∃ st3,
       update_scope (set "x" (VInt 1);; (raise (Exception "boom") : M ())) st0
       = (Raise (Exception "boom") : Result (), st3)
       ∧ _updates st3 = 0
       ∧ dom (updates st3) = {[ [KName "metadata"; KName "x"] ]}).
Proof.
  intros st0.
  destruct update_scope_nesting as (_ & Hexit & Hnest). split.
  - destruct (Hnest st0 "x" (VInt 1) "y" (VInt 2))
      as (a & b & st' & Hrun & Ha & Hb & _);
      [split; simpl; lia|reflexivity|reflexivity|reflexivity
      |discriminate|discriminate|discriminate|discriminate|discriminate
      |simpl; by rewrite lookup_empty|simpl; by rewrite lookup_empty|].
    by exists a, b, st'.
  - destruct (Hexit unit (set "x" (VInt 1);; (raise (Exception "boom") : M ())) st0
                (Raise (Exception "boom"))
                (snd ((set "x" (VInt 1);; (raise (Exception "boom") : M ()))
                        (scope_entry st0))))
      as (st3 & Hrun & Hu & _ & Hmerge); [vm_compute; reflexivity|].
    exists st3. split_and!; [exact Hrun|exact Hu|].
    destruct Hmerge as [-> _]; [vm_compute; lia..|].
    vm_compute. reflexivity.
Defined.

(** ** Path-addressed update and read *)

Section StructuralUpdate.
Import pg.

Lemma Result_bind_Ok {A B} (a : A) (f : A → Result B) : (Ok a ≫= f) = f a.
Proof. done. Qed.

Lemma Result_bind_Raise {A B} e (f : A → Result B) : (Raise e ≫= f) = Raise e.
Proof. done. Qed.

Lemma set_item_of_tree_one t k v :
  set_item_of_tree t [k] v = set_item t k v.
Proof. done. Qed.

Lemma set_item_of_tree_more t k k' rest v :
  set_item_of_tree t (k :: k' :: rest) v =
    match get_item t k with
    | Some child =>
        child' ← set_item_of_tree child (k' :: rest) v; set_item t k child'
    | None => Raise KeyError
    end.
Proof. done. Qed.

Lemma query_cons t k rest :
  query t (k :: rest) =
    match get_item t k with
    | Some child => query child rest
    | None => None
    end.
Proof. done. Qed.

Local Arguments set_item_of_tree : simpl never.
Local Arguments query : simpl never.

Lemma position_lt n i j : position n i = Some j → j < n.
Proof.
  unfold position. repeat case_decide; intros [= <-]; lia.
Qed.

Lemma position_past n i : (Z.of_nat n ≤ i)%Z → position n i = None.
Proof. intros Hi. unfold position. repeat case_decide; (done || lia). Qed.

Lemma set_item_container t k v t' :
  set_item t k v = Ok t' → is_missing t' = false.
Proof.
  destruct t, k; simpl; try discriminate.
  - case_decide; [by intros [= <-]|].
    case_match; [|discriminate]. by intros [= <-].
  - by intros [= <-].
Qed.

(** What a descent through [k] does once the child has been updated. *)
Lemma set_item_of_tree_step t k k' rest v t' :
  set_item_of_tree t (k :: k' :: rest) v = Ok t' →
  ∃ c c', get_item t k = Some c
          ∧ set_item_of_tree c (k' :: rest) v = Ok c'
          ∧ set_item t k c' = Ok t'.
Proof.
  rewrite set_item_of_tree_more.
  destruct (get_item t k) as [child|] eqn:Hg; [|done].
  destruct (set_item_of_tree child (k' :: rest) v) as [c'|] eqn:Hc;
    [|by rewrite Result_bind_Raise].
  rewrite Result_bind_Ok. intros Hs. exists child, c'. eauto.
Qed.


Lemma set_item_of_tree_container t ks v t' :
  set_item_of_tree t ks v = Ok t' → is_missing t' = false.
Proof.
  destruct ks as [|k [|k' rest]]; [discriminate|apply set_item_container|].
  intros (c & c' & _ & _ & Hs)%set_item_of_tree_step.
  by eapply set_item_container.
Qed.

Lemma set_item_dict d k v t' :
  set_item (VDict d) k v = Ok t' → ∃ d', t' = VDict d'.
Proof. destruct k; simpl; [|discriminate]. intros [= <-]. eauto. Qed.

Lemma set_item_of_tree_dict d ks v t' :
  set_item_of_tree (VDict d) ks v = Ok t' → ∃ d', t' = VDict d'.
Proof.
  destruct ks as [|k [|k' rest]]; [discriminate|apply set_item_dict|].
  intros (c & c' & _ & _ & Hs)%set_item_of_tree_step.
  by eapply set_item_dict.
Qed.

(** Reading the key just written gives the value written, for a field
    name and for an index that was there before. *)
Lemma get_set_item t k v t' :
  set_item t k v = Ok t' → is_missing v = false →
  (∃ n, k = KName n) ∨ is_Some (get_item t k) →
  get_item t' k = Some v.
Proof.
  intros Hs Hv Hk. destruct t, k; simpl in Hs; try discriminate.
  - destruct Hk as [[n [=]]|[c Hc]]. simpl in Hc.
    destruct (position (length l) i) as [j|] eqn:Hj; [|done].
    pose proof (position_lt _ _ _ Hj) as Hlt.
    case_decide as Hi; [by rewrite position_past in Hj|].
    injection Hs as <-. rewrite Hv. simpl.
    rewrite length_insert, Hj. simpl. by apply list_lookup_insert_eq.
  - injection Hs as <-. rewrite Hv. simpl. apply lookup_insert_eq.
Qed.

(** Reading the name just deleted finds nothing. *)
Lemma get_delete_name t n t' :
  set_item t (KName n) VMissing = Ok t' → get_item t' (KName n) = None.
Proof.
  destruct t; simpl; try discriminate. intros [= <-]. simpl.
  apply lookup_delete_eq.
Qed.

Lemma ends_in_name_tail k k' rest :
  ends_in_name (k :: k' :: rest) → ends_in_name (k' :: rest).
Proof. intros [n Hn]. by exists n. Qed.

Lemma query_after_set t ks v t' :
  set_item_of_tree t ks v = Ok t' → is_missing v = false →
  ends_in_name ks ∨ is_Some (query t ks) →
  query t' ks = Some v.
Proof.
  revert t t'. induction ks as [|k rest IH]; intros t t' Hs Hv Hk;
    [discriminate|].
  rewrite query_cons. destruct rest as [|k' rest].
  { rewrite (get_set_item _ _ _ _ Hs Hv); [done|].
    destruct Hk as [[n [= ->]]|[c Hc]]; [left; eauto|right].
    rewrite query_cons in Hc. destruct (get_item t k); [eauto|done]. }
  apply set_item_of_tree_step in Hs as (c & c' & Hg & Hc & Hs).
  rewrite (get_set_item _ _ _ _ Hs (set_item_of_tree_container _ _ _ _ Hc))
    by (right; by rewrite Hg).
  apply (IH c); [done..|].
  destruct Hk as [Hn|Hq]; [left; by eapply ends_in_name_tail|right].
  by rewrite query_cons, Hg in Hq.
Qed.

Lemma query_after_delete t ks t' :
  set_item_of_tree t ks VMissing = Ok t' → ends_in_name ks →
  query t' ks = None.
Proof.
  revert t t'. induction ks as [|k rest IH]; intros t t' Hs [n Hn];
    [discriminate|].
  rewrite query_cons. destruct rest as [|k' rest].
  { injection Hn as ->. by rewrite (get_delete_name _ _ _ Hs). }
  apply set_item_of_tree_step in Hs as (c & c' & Hg & Hc & Hs).
  rewrite (get_set_item _ _ _ _ Hs (set_item_of_tree_container _ _ _ _ Hc))
    by (right; by rewrite Hg).
  apply (IH c); [done|]. by exists n.
Qed.

(** Writing the value already there leaves the tree as it is. *)
Lemma set_item_same t k v :
  get_item t k = Some v → is_missing v = false → set_item t k v = Ok t.
Proof.
  intros Hg Hv. destruct t, k; simpl in *; try discriminate.
  - destruct (position (length l) i) as [j|] eqn:Hj; [|done]. simpl in Hg.
    case_decide as Hi; [by rewrite position_past in Hj|].
    rewrite Hv. by rewrite list_insert_id.
  - rewrite Hv. by rewrite insert_id.
Qed.

Lemma set_item_of_tree_same t ks v :
  ks ≠ [] → query t ks = Some v → is_missing v = false →
  set_item_of_tree t ks v = Ok t.
Proof.
  revert t. induction ks as [|k rest IH]; intros t Hne Hq Hv; [done|].
  rewrite query_cons in Hq.
  destruct (get_item t k) as [child|] eqn:Hg; [|discriminate].
  destruct rest as [|k' rest].
  { injection Hq as ->. by apply set_item_same. }
  rewrite set_item_of_tree_more, Hg, (IH child), Result_bind_Ok by done.
  apply set_item_same; [done|].
  rewrite query_cons in Hq. by destruct child.
Qed.

End StructuralUpdate.

Lemma notify_ok ups st :
  ∃ st', notify ups st = (Ok (), st') ∧ self st' = self st
         ∧ (ups = [] → st' = st).
Proof.
  unfold notify. destruct (notify_enabled st); simpl.
  - case_bool_decide as Hu; simpl.
    + eexists. split_and!; done.
    + eexists. split_and!; [reflexivity|done|done].
  - eexists. split_and!; done.
Qed.

Lemma with_self_id st : with_self (set_metadata (metadata (self st))) st = st.
Proof. by destruct st as [[] ?]. Qed.

(** What [set] does for a key path other than the text slot: a key path
    that does not parse raises; otherwise the outcome of the structural
    update of the metadata decides. *)
Lemma set_metadata_outcome st p v :
  p ≠ PATH_TEXT →
  match pg.parse p with
  | Raise e => set p v st = (Raise e, st)
  | Ok ks =>
      match pg.set_item_of_tree (VDict (metadata (self st))) ks v with
      | Raise e => set p v st = (Raise e, st)
      | Ok t =>
          ∃ st', set p v st = (Ok (), st')
                 ∧ self st' = set_metadata (pg.dict_of t) (self st)
      end
  end.
Proof.
  intros Hp. unfold set. rewrite decide_False by done.
  unfold metadata_rebind, pg.rebind.
  destruct (pg.parse p) as [ks|e]; [|done]. rewrite Result_bind_Ok.
  unfold pg.rebind_path.
  destruct (pg.set_item_of_tree _ _ _) as [t|e]; [|done].
  rewrite Result_bind_Ok. cbn [andb].
  match goal with |- context [notify ?u ?s] =>
    destruct (notify_ok u s) as (st' & -> & Hself & _) end.
  by exists st'.
Qed.

Lemma set_text_run st s :
  ∃ st', set PATH_TEXT (VStr s) st = (Ok (), st')
         ∧ self st' = set_text s (self st).
Proof.
  unfold set. rewrite decide_True by done.
  unfold Message_rebind.
  change (pg.parse PATH_TEXT) with (Ok [KName "text"] : Result KeyPath).
  cbn [decide_rel]. rewrite decide_True by done.
  destruct (decide (text (self st) = s)) as [<-|Hne].
  - exists st. split; [done|]. by destruct st as [[] ?].
  - match goal with |- context [notify ?u ?s] =>
      destruct (notify_ok u s) as (st' & -> & Hself & _) end.
    by exists st'.
Qed.


Lemma get_metadata m p d ks :
  PyStr.is_empty p = false → p ≠ PATH_TEXT → pg.parse p = Ok ks →
  get m p d
  = Ok (AVal (unref (from_option id d (pg.query (VDict (metadata m)) ks)))).
Proof.
  intros He Hp Hks. unfold get, pg.sym_get.
  rewrite He, decide_False, Hks by done. done.
Qed.

Lemma set_ok_inv st p v st' :
  p ≠ PATH_TEXT → set p v st = (Ok (), st') →
  PyStr.is_empty p = false
  ∧ ∃ ks d', pg.parse p = Ok ks
             ∧ pg.set_item_of_tree (VDict (metadata (self st))) ks v
               = Ok (VDict d')
             ∧ metadata (self st') = d'.
Proof.
  intros Hp Hs. pose proof (set_metadata_outcome st p v Hp) as Ho.
  destruct (pg.parse p) as [ks|e] eqn:Hks; [|congruence].
  destruct (pg.set_item_of_tree _ _ _) as [t|e] eqn:Ht; [|congruence].
  destruct Ho as (st'' & Hs' & Hself).
  assert (st'' = st') as -> by congruence.
  destruct (set_item_of_tree_dict _ _ _ _ Ht) as [d' ->].
  split; [by destruct p|]. exists ks, d'. split_and!; [done..|].
  by rewrite Hself.
Qed.




Lemma set_plain_name_ok st x v :
  plain_name x → x ≠ PATH_TEXT → ∃ st', set x v st = (Ok (), st').
Proof.
  intros Hx Ht. pose proof (set_metadata_outcome st x v Ht) as Ho.
  rewrite Hx in Ho. simpl in Ho. destruct Ho as (st' & Hs & _). eauto.
Qed.

(** Assigning the value already stored succeeds and leaves the message as
    it is. *)
Lemma set_same_value st p ks v :
  p ≠ PATH_TEXT → pg.parse p = Ok ks → ks ≠ [] → v ≠ VMissing →
  pg.query (VDict (metadata (self st))) ks = Some v →
  ∃ st', set p v st = (Ok (), st') ∧ self st' = self st.
Proof.
  intros Hp Hks Hne Hv Hq.
  pose proof (set_metadata_outcome st p v Hp) as Ho. rewrite Hks in Ho.
  rewrite set_item_of_tree_same in Ho by (done || by destruct v).
  destruct Ho as (st' & Hs & Hself). exists st'. split; [done|].
  rewrite Hself. simpl. by destruct (self st).
Qed.

(** C4, as amended.  After a successful [set] of a value other than the
    missing sentinel at a metadata path that ends in a field name or
    addresses a location that exists, [get] at that path returns the value,
    looked through when it is a reference wrapper.  After a successful
    [set] of the missing sentinel at a path that ends in a field name,
    [get] returns the default (looked through likewise).  A [set] of the
    value already stored succeeds and leaves the message as it is.  For a
    plain field name [set] always succeeds. *)
Theorem path_duality :
  (∀ st p ks v d st', p ≠ PATH_TEXT → v ≠ VMissing → pg.parse p = Ok ks →
     ends_in_name ks ∨ is_Some (pg.query (VDict (metadata (self st))) ks) →
     set p v st = (Ok (), st') →
     get (self st') p d = Ok (AVal (unref v)))
  ∧ (∀ st p ks d st', p ≠ PATH_TEXT → pg.parse p = Ok ks →
       ends_in_name ks →
       set p VMissing st = (Ok (), st') →
       get (self st') p d = Ok (AVal (unref d)))
  ∧ (∀ st p ks v, p ≠ PATH_TEXT → pg.parse p = Ok ks → ks ≠ [] →
       v ≠ VMissing →
       pg.query (VDict (metadata (self st))) ks = Some v →
       ∃ st', set p v st = (Ok (), st') ∧ self st' = self st)
  ∧ (∀ st x v, plain_name x → x ≠ PATH_TEXT →
       ∃ st', set x v st = (Ok (), st')).
Proof.
  split_and!.
  - intros st p ks v d st' Hp Hv Hks Hk Hs.
    destruct (set_ok_inv _ _ _ _ Hp Hs) as (He & ks' & d' & Hks' & Ht & Hm).
    assert (ks' = ks) as -> by congruence.
    rewrite (get_metadata _ _ _ ks), Hm by done.
    rewrite (query_after_set _ _ _ _ Ht); [done|by destruct v|done].
  - intros st p ks d st' Hp Hks Hn Hs.
    destruct (set_ok_inv _ _ _ _ Hp Hs) as (He & ks' & d' & Hks' & Ht & Hm).
    assert (ks' = ks) as -> by congruence.
    rewrite (get_metadata _ _ _ ks), Hm by done.
    by rewrite (query_after_delete _ _ _ Ht).
  - intros. by eapply set_same_value.
  - intros. by apply set_plain_name_ok.
Qed.

Lemma path_duality_witness :
  let st0 := _on_init (new cAIMessage "foo"
                         {["x" := VDict {["k" := VList [VInt 0; VInt 1]]};
                           "y" := VInt 2]}) in
  get (self (set "x.k[0]" (VInt 1) st0).2) "x.k[0]" VNone
  = Ok (AVal (VInt 1))
  ∧ get (self (set "y" VMissing st0).2) "y" (VStr "gone")
    = Ok (AVal (VStr "gone"))
  ∧ ∃ st', set "y" (VInt 2) st0 = (Ok (), st') ∧ self st' = self st0.
Proof.
  intros st0. destruct path_duality as (Hset & Hdel & Hsame & _).
  split_and!.
  - apply (Hset st0 "x.k[0]" [KName "x"; KName "k"; KIndex 0] (VInt 1) VNone);
      [discriminate|discriminate|reflexivity| |vm_compute; reflexivity].
    right. vm_compute. eauto.
  - apply (Hdel st0 "y" [KName "y"] (VStr "gone"));
      [discriminate|reflexivity|by exists "y"|].
    vm_compute. reflexivity.
  - apply (Hsame st0 "y" [KName "y"] (VInt 2));
      [discriminate|reflexivity|discriminate|discriminate|].
    vm_compute. reflexivity.
Defined.

(** The counterexamples to C4 as stated.  A reference wrapper (here around
    a modality object, as [from_chunks] stores it for an owned object) is
    stored as it is, but [get] returns the object it wraps, not the wrapper
    that was set.  And a [set] at a list index past the end succeeds by
    appending the value, so that [get] at that index finds nothing. *)
Lemma get_after_set_unwraps :
  let img := mkModality "img" true in
  let st0 := _on_init (UserMessage "hi") in
  let st1 := _on_init (new cAIMessage "hi"
                         {["k" := VList [VInt 0; VInt 1]]}) in
  set "a" (VRef (VMod img)) st0 = (Ok (), (set "a" (VRef (VMod img)) st0).2)
  ∧ metadata (self (set "a" (VRef (VMod img)) st0).2) !! "a"
    = Some (VRef (VMod img))
  ∧ get (self (set "a" (VRef (VMod img)) st0).2) "a" VNone
    = Ok (AVal (VMod img))
  ∧ AVal (VMod img) ≠ AVal (VRef (VMod img))
  ∧ (set "k[5]" (VInt 9) st1).1 = Ok ()
  ∧ metadata (self (set "k[5]" (VInt 9) st1).2) !! "k"
    = Some (VList [VInt 0; VInt 1; VInt 9])
  ∧ get (self (set "k[5]" (VInt 9) st1).2) "k[5]" VNone = Ok (AVal VNone).
Proof.
  split_and!; try (vm_compute; reflexivity). discriminate.
Qed.

(** ** Facts about strings *)

Section Strings.
Import PyStr.

Lemma append_nil s : EmptyString +:+ s = s.
Proof. done. Qed.

Lemma append_cons c s1 s2 : String c s1 +:+ s2 = String c (s1 +:+ s2).
Proof. done. Qed.

Ltac str_simpl := rewrite ?append_cons, ?append_nil; simpl.

Lemma length_app s1 s2 :
  String.length (s1 +:+ s2) = String.length s1 + String.length s2.
Proof. induction s1 as [|c s1 IH]; str_simpl; [done|by rewrite IH]. Qed.

Lemma app_assoc_s s1 s2 s3 : (s1 +:+ s2) +:+ s3 = s1 +:+ (s2 +:+ s3).
Proof. induction s1 as [|c s1 IH]; str_simpl; [done|by rewrite IH]. Qed.

Lemma app_empty_r s : s +:+ EmptyString = s.
Proof. induction s as [|c s IH]; str_simpl; [done|by rewrite IH]. Qed.

Lemma substring_all s : String.substring 0 (String.length s) s = s.
Proof. induction s as [|c s IH]; simpl; [done|by rewrite IH]. Qed.

Lemma substring_0_app s1 s2 :
  String.substring 0 (String.length s1) (s1 +:+ s2) = s1.
Proof.
  induction s1 as [|c s1 IH]; str_simpl; [by destruct s2|by rewrite IH].
Qed.

Lemma substring_skip s1 s2 m :
  String.substring (String.length s1) m (s1 +:+ s2) = String.substring 0 m s2.
Proof. induction s1 as [|c s1 IH]; str_simpl; done. Qed.

Lemma substring_nonempty n m s :
  n < String.length s → 0 < m → is_empty (String.substring n m s) = false.
Proof.
  revert n. induction s as [|c s IH]; intros n Hn Hm; simpl in Hn; [lia|].
  destruct n as [|n]; simpl.
  - destruct m; [lia|done].
  - apply IH; lia.
Qed.

Lemma slice_from_0 s : slice_from 0 s = s.
Proof. unfold slice_from. rewrite Nat.sub_0_r. apply substring_all. Qed.

(** [find] reports a position at or after the start, at which the pattern
    fits in the text. *)
Lemma find_ge sub s n m : find sub s n = Some m → n ≤ m.
Proof.
  unfold find. revert n m. induction s as [|c s IH]; intros n m; simpl.
  - destruct n; [|done]. destruct sub; [|done]. intros [= <-]. lia.
  - destruct n as [|n].
    + intros _. lia.
    + destruct (String.index n sub s) as [k|] eqn:Hk; [|done].
      intros [= <-]. apply IH in Hk. lia.
Qed.

Lemma prefix_length s1 s2 :
  String.prefix s1 s2 = true → String.length s1 ≤ String.length s2.
Proof.
  revert s2. induction s1 as [|c s1 IH]; intros [|d s2]; simpl;
    try (done || lia).
  destruct (ascii_dec c d); [|done]. intros H%IH. lia.
Qed.

Lemma index_0_cons sub c s :
  String.index 0 sub (String c s) =
    if String.prefix sub (String c s) then Some 0
    else S <$> String.index 0 sub s.
Proof. cbn [String.index]. by destruct (String.index 0 sub s). Qed.

Lemma index_S_cons n sub c s :
  String.index (S n) sub (String c s) = S <$> String.index n sub s.
Proof. cbn [String.index]. by destruct (String.index n sub s). Qed.

Lemma find_fits sub s n m :
  find sub s n = Some m → m + String.length sub ≤ String.length s.
Proof.
  unfold find. revert n m. induction s as [|c s IH]; intros n m.
  - simpl. destruct n; [|done]. destruct sub; [|done]. intros [= <-].
    simpl. lia.
  - destruct n as [|n].
    + rewrite index_0_cons.
      destruct (String.prefix sub (String c s)) eqn:Hp.
      * intros [= <-]. apply prefix_length in Hp. simpl in *. lia.
      * destruct (String.index 0 sub s) as [k|] eqn:Hk; [|done].
        intros [= <-]. apply IH in Hk. simpl. lia.
    + rewrite index_S_cons.
      destruct (String.index n sub s) as [k|] eqn:Hk; [|done].
      intros [= <-]. apply IH in Hk. simpl. lia.
Qed.

End Strings.

(** ** The chunker *)


Lemma add_text_chunk_slice chunks text chunk_start :
  chunk_start < String.length text →
  add_text_chunk chunks (PyStr.slice_from chunk_start text)
  = chunks ++ [CText (PyStr.slice_from chunk_start text)].
Proof.
  intros Hlt. unfold add_text_chunk, PyStr.slice_from.
  rewrite substring_nonempty; [done..|lia].
Qed.




Lemma get_parsed m key_path d ks :
  pg.parse key_path = Ok ks → ∃ r, get m key_path d = Ok r.
Proof.
  intros Hks. unfold get, pg.sym_get. destruct (PyStr.is_empty key_path);
    [eauto|].
  case_decide; [eauto|]. rewrite Hks. eauto.
Qed.







(** ** The round trip of [from_chunks] and [chunk] *)

Section RoundTrip.
Import PyStr modality.

Lemma from_chunks_loop_fused separator i chunks fused_text n metadata :
  from_chunks_loop separator i chunks fused_text n metadata
  = (fused_text +:+ fused separator i n chunks, recorded n chunks metadata).
Proof.
  revert i fused_text n metadata.
  induction chunks as [|[s|o] rest IH]; intros i fused_text n metadata.
  - simpl. by rewrite app_empty_r.
  - cbn [from_chunks_loop fused recorded]. rewrite IH.
    destruct (0 <? i); by rewrite ?append_nil, ?app_assoc_s.
  - cbn [from_chunks_loop fused recorded]. rewrite IH. fold (obj_name n).
    destruct (0 <? i); by rewrite ?append_nil, ?app_assoc_s.
Qed.

Lemma obj_name_inj : Inj (=) (=) obj_name.
Proof.
  intros n1 n2 H. unfold obj_name in H.
  apply (inj (String.append "obj")) in H. by apply (inj pretty) in H.
Qed.

Lemma recorded_lookup n chunks metadata j :
  recorded n chunks metadata !! obj_name j =
    if decide (n ≤ j) then
      match modalities chunks !! (j - n) with
      | Some o => Some (maybe_ref o)
      | None => metadata !! obj_name j
      end
    else metadata !! obj_name j.
Proof.
  revert n metadata. induction chunks as [|[s|o] rest IH]; intros n metadata.
  - simpl. by case_decide.
  - simpl. apply IH.
  - cbn [recorded]. rewrite IH.
    change (modalities (CMod o :: rest)) with (o :: modalities rest).
    destruct (decide (S n ≤ j)) as [Hle|Hnle].
    + rewrite decide_True by lia.
      replace (j - n) with (S (j - S n)) by lia. simpl.
      destruct (modalities rest !! (j - S n)); [done|].
      rewrite lookup_insert_ne; [done|]. intros H%obj_name_inj. lia.
    + destruct (decide (n ≤ j)) as [Hle|Hnle'].
      * assert (j = n) as -> by lia. rewrite Nat.sub_diag. simpl.
        by rewrite lookup_insert_eq.
      * rewrite lookup_insert_ne; [done|]. intros H%obj_name_inj. lia.
Qed.

Lemma recorded_keys n chunks metadata k :
  is_Some (recorded n chunks metadata !! k) →
  is_Some (metadata !! k)
  ∨ ∃ j, k = obj_name (n + j) ∧ j < length (modalities chunks).
Proof.
  revert n metadata. induction chunks as [|[s|o] rest IH]; intros n metadata.
  - by left.
  - simpl. apply IH.
  - cbn [recorded]. intros [Hk|(j & -> & Hj)]%IH.
    + destruct (decide (k = obj_name n)) as [->|Hne].
      * right. exists 0. rewrite Nat.add_0_r. split; [done|]. simpl. lia.
      * left. by rewrite lookup_insert_ne in Hk.
    + right. exists (S j). split; [f_equal; lia|]. simpl. lia.
Qed.

End RoundTrip.

Section StripFacts.
Import PyStr.

Lemma blank_cons c w : blank (String c w) ↔ isspace c = true ∧ blank w.
Proof.
  unfold blank. simpl. destruct (isspace c).
  - split; [by intros H|by intros [_ H]].
  - split; [done|]. by intros [? _].
Qed.

Lemma blank_LF : blank LF.
Proof. done. Qed.

Lemma blank_rstrip w : blank w ↔ rstrip w = EmptyString.
Proof.
  induction w as [|c w IH]; [done|].
  rewrite blank_cons. simpl. destruct (isspace c); simpl.
  - rewrite IH. destruct (rstrip w); simpl.
    + split; [done|]. by intros _.
    + split; [by intros [_ ?]|done].
  - split; [by intros [? _]|done].
Qed.

Lemma lstrip_blank_app w y : blank w → lstrip (w +:+ y) = lstrip y.
Proof.
  induction w as [|c w IH]; [done|]. intros [Hc Hw]%blank_cons.
  rewrite append_cons. simpl. rewrite Hc. by apply IH.
Qed.

Lemma lstrip_app_start x c y :
  isspace c = false →
  lstrip (x +:+ String c y) = lstrip x +:+ String c y.
Proof.
  intros Hc. induction x as [|d x IH].
  - rewrite !append_nil. simpl. by rewrite Hc.
  - rewrite append_cons. simpl. destruct (isspace d); [done|].
    by rewrite append_cons.
Qed.

Lemma append_nonempty x y : is_empty y = false → is_empty (x +:+ y) = false.
Proof. by destruct x. Qed.

Lemma rstrip_app_nonblank x y :
  is_empty (rstrip y) = false → rstrip (x +:+ y) = x +:+ rstrip y.
Proof.
  intros Hy. induction x as [|c x IH]; [done|].
  rewrite !append_cons. simpl. rewrite IH.
  by rewrite (append_nonempty _ _ Hy), andb_false_r.
Qed.

Lemma rstrip_app_blank x w : blank w → rstrip (x +:+ w) = rstrip x.
Proof.
  intros Hw%blank_rstrip. induction x as [|c x IH]; [done|].
  rewrite append_cons. simpl. by rewrite IH.
Qed.

Lemma rstrip_start c y : isspace c = false →
  rstrip (String c y) = String c (rstrip y).
Proof. intros Hc. simpl. by rewrite Hc. Qed.

Lemma lstrip_idemp x : lstrip (lstrip x) = lstrip x.
Proof.
  induction x as [|c x IH]; [done|]. simpl.
  destruct (isspace c) eqn:Hc; [done|]. simpl. by rewrite Hc.
Qed.

Lemma rstrip_idemp x : rstrip (rstrip x) = rstrip x.
Proof.
  induction x as [|c x IH]; [done|]. simpl.
  destruct (isspace c && is_empty (rstrip x)) eqn:Hc; [done|].
  simpl. by rewrite IH, Hc.
Qed.

Lemma strip_commute x : rstrip (lstrip x) = lstrip (rstrip x).
Proof.
  induction x as [|c x IH]; [done|]. simpl.
  destruct (isspace c) eqn:Hc; simpl.
  - rewrite IH. destruct (rstrip x) eqn:Hr; simpl; [done|]. by rewrite Hc.
  - by rewrite Hc.
Qed.

Lemma strip_lstrip x : strip (lstrip x) = strip x.
Proof. unfold strip. by rewrite strip_commute, lstrip_idemp. Qed.

Lemma strip_rstrip x : strip (rstrip x) = strip x.
Proof. unfold strip. by rewrite rstrip_idemp. Qed.

Lemma strip_idemp x : strip (strip x) = strip x.
Proof. unfold strip at 2. by rewrite strip_lstrip, strip_rstrip. Qed.

Lemma strip_blank_r s w : blank w → strip (s +:+ w) = strip s.
Proof. intros Hw. unfold strip. by rewrite rstrip_app_blank. Qed.

Lemma strip_blank_l w s : blank w → strip (w +:+ s) = strip s.
Proof.
  intros Hw. unfold strip. destruct (is_empty (rstrip s)) eqn:Hs.
  - destruct (rstrip s) eqn:Hr; [|done].
    apply blank_rstrip in Hr. rewrite rstrip_app_blank by done.
    apply blank_rstrip in Hw. by rewrite Hw.
  - rewrite rstrip_app_nonblank by done. by apply lstrip_blank_app.
Qed.

Lemma strip_blank w : blank w → strip w = EmptyString.
Proof. intros Hw%blank_rstrip. unfold strip. by rewrite Hw. Qed.

Lemma blank_app w1 w2 : blank w1 → blank w2 → blank (w1 +:+ w2).
Proof. intros H1 H2. unfold blank. by rewrite lstrip_blank_app. Qed.

(** A string is its blank head followed by its left-stripped rest, and its
    right-stripped part followed by a blank tail. *)
Lemma lstrip_split x : ∃ w, x = w +:+ lstrip x.
Proof.
  induction x as [|c x [w IH]]; [by exists EmptyString|]. simpl.
  destruct (isspace c).
  - exists (String c w). by rewrite append_cons, <- IH.
  - by exists EmptyString.
Qed.

Lemma rstrip_split x : ∃ w, x = rstrip x +:+ w.
Proof.
  induction x as [|c x [w IH]]; [by exists EmptyString|]. simpl.
  destruct (isspace c && is_empty (rstrip x)) eqn:Hc.
  - by exists (String c x).
  - exists w. by rewrite append_cons, <- IH.
Qed.

Lemma plain_char_nospace c : plain_char c = true → isspace c = false.
Proof. unfold plain_char. destruct (isspace c); [done|done]. Qed.

Lemma rstrip_plain s : plain_chars s = true → rstrip s = s.
Proof.
  induction s as [|c s IH]; [done|]. simpl.
  intros [Hc%plain_char_nospace Hs]%andb_true_iff.
  by rewrite Hc, IH.
Qed.

Lemma strip_plain s : plain_chars s = true → strip s = s.
Proof.
  intros Hs. unfold strip. rewrite rstrip_plain by done.
  destruct s as [|c s]; [done|]. simpl in *.
  apply andb_true_iff in Hs as [Hc%plain_char_nospace _]. by rewrite Hc.
Qed.

Lemma plain_chars_app s1 s2 :
  plain_chars (s1 +:+ s2) = plain_chars s1 && plain_chars s2.
Proof.
  induction s1 as [|c s1 IH]; [done|]. rewrite append_cons. simpl.
  by rewrite IH, andb_assoc.
Qed.

End StripFacts.

Section FindFacts.
Import PyStr.

Lemma prefix2_cons a c s :
  String.prefix (pat2 a) (String c s) =
    bool_decide (a = c)
    && match s with
       | String d _ => bool_decide (a = d)
       | EmptyString => false
       end.
Proof.
  cbn [String.prefix]. destruct (ascii_dec a c) as [->|Hne].
  - rewrite bool_decide_true by done. destruct s as [|d s]; [done|].
    cbn [String.prefix andb]. destruct (ascii_dec c d) as [->|Hne].
    + rewrite bool_decide_true by done. by destruct s.
    + by rewrite bool_decide_false.
  - by rewrite bool_decide_false.
Qed.

Lemma index_none_cons sub c s :
  String.index 0 sub (String c s) = None ↔
    String.prefix sub (String c s) = false ∧ String.index 0 sub s = None.
Proof.
  rewrite index_0_cons. destruct (String.prefix sub (String c s)).
  - split; [done|]. by intros [? _].
  - destruct (String.index 0 sub s); simpl.
    + split; [done|]. by intros [_ ?].
    + done.
Qed.

Lemma index_none_app_r sub s1 s2 :
  String.index 0 sub (s1 +:+ s2) = None → String.index 0 sub s2 = None.
Proof.
  induction s1 as [|c s1 IH]; [done|]. rewrite append_cons.
  intros [_ H]%index_none_cons. by apply IH.
Qed.

Lemma index2_none_app_l a s1 s2 :
  String.index 0 (pat2 a) (s1 +:+ s2) = None →
  String.index 0 (pat2 a) s1 = None.
Proof.
  induction s1 as [|c s1 IH]; [done|]. rewrite append_cons.
  intros [Hp H]%index_none_cons. apply index_none_cons. split; [|by apply IH].
  rewrite prefix2_cons in *. destruct (bool_decide (a = c)); [|done].
  simpl in *. destruct s1 as [|d s1]; [done|]. by rewrite append_cons in Hp.
Qed.

(** Two texts without the pattern, joined by another character. *)
Lemma index2_none_join a c s1 s2 :
  c ≠ a →
  String.index 0 (pat2 a) s1 = None → String.index 0 (pat2 a) s2 = None →
  String.index 0 (pat2 a) (s1 +:+ String c s2) = None.
Proof.
  intros Hc H1 H2. induction s1 as [|d s1 IH].
  - rewrite append_nil. apply index_none_cons. split; [|done].
    rewrite prefix2_cons. by rewrite (bool_decide_false (a = c)).
  - rewrite append_cons. apply index_none_cons in H1 as [Hp H1].
    apply index_none_cons. split; [|by apply IH].
    rewrite prefix2_cons in *. destruct (bool_decide (a = d)); [|done].
    simpl in *. destruct s1 as [|e s1].
    + rewrite append_nil. by rewrite bool_decide_false.
    + by rewrite append_cons.
Qed.

(** The first occurrence of the pattern, when the text before it, extended
    by one pattern character, holds none. *)
Lemma index2_first a x r :
  String.index 0 (pat2 a) (x +:+ String a EmptyString) = None →
  String.index 0 (pat2 a) (x +:+ String a (String a r))
  = Some (String.length x).
Proof.
  induction x as [|c x IH].
  - intros _. rewrite append_nil, index_0_cons, prefix2_cons.
    by rewrite !bool_decide_true.
  - rewrite !append_cons. intros [Hp H]%index_none_cons.
    rewrite index_0_cons, IH by done.
    rewrite prefix2_cons in *. destruct (bool_decide (a = c)); [|done].
    simpl in *. destruct x as [|d x].
    + rewrite append_nil in Hp. by rewrite bool_decide_true in Hp.
    + rewrite append_cons in *. by rewrite Hp.
Qed.

Lemma index_skip sub s1 s2 :
  String.index (String.length s1) sub (s1 +:+ s2)
  = (λ m, String.length s1 + m) <$> String.index 0 sub s2.
Proof.
  induction s1 as [|c s1 IH].
  - rewrite append_nil. simpl. by destruct (String.index 0 sub s2).
  - rewrite append_cons. simpl String.length. rewrite index_S_cons, IH.
    by destruct (String.index 0 sub s2).
Qed.

(** A search that starts on a pattern of another character skips it. *)
Lemma index2_skip_other a b t :
  a ≠ b →
  String.index 0 (pat2 a) (pat2 b +:+ t)
  = (λ m, 2 + m) <$> String.index 0 (pat2 a) t.
Proof.
  intros Hab. rewrite !append_cons, append_nil.
  rewrite index_0_cons, prefix2_cons, (bool_decide_false (a = b)) by done.
  cbn [andb]. rewrite index_0_cons, prefix2_cons.
  rewrite (bool_decide_false (a = b)) by done. cbn [andb].
  by destruct (String.index 0 (pat2 a) t).
Qed.

Lemma index2_none_plain a s :
  plain_char a = false → plain_chars s = true →
  String.index 0 (pat2 a) (s +:+ String a EmptyString) = None.
Proof.
  intros Ha. induction s as [|c s IH].
  { intros _. rewrite append_nil. apply index_none_cons. split; [|done].
    rewrite prefix2_cons. apply andb_false_r. }
  cbn [plain_chars]. intros [Hc Hs]%andb_true_iff. rewrite append_cons.
  apply index_none_cons. split; [|by apply IH].
  rewrite prefix2_cons. rewrite bool_decide_false; [done|].
  intros ->. congruence.
Qed.

End FindFacts.

Section LoopOnGaps.
Import PyStr modality.

Lemma add_text_chunk_app acc s :
  add_text_chunk acc s = acc ++ add_text_chunk [] s.
Proof. unfold add_text_chunk. destruct s; simpl; by rewrite ?app_nil_r. Qed.

Lemma find_from_ref_end p ref_end t :
  ref_end_ok p ref_end →
  find REF_START (p +:+ t) ref_end
  = (λ m, String.length p + m) <$> find REF_START t 0.
Proof.
  unfold find. intros [->|(p0 & -> & ->)]; [apply index_skip|].
  unfold REF_START, REF_END.
  rewrite app_assoc_s, index_skip, index2_skip_other by done.
  rewrite length_app. destruct (String.index 0 _ t); simpl; [|done].
  f_equal. lia.
Qed.

Lemma slice_from_skip p t : slice_from (String.length p) (p +:+ t) = t.
Proof.
  unfold slice_from. rewrite length_app, substring_skip.
  replace (String.length p + String.length t - String.length p)
    with (String.length t) by lia.
  apply substring_all.
Qed.

Lemma slice_middle p x t :
  slice (String.length p) (String.length p + String.length x)
    (p +:+ x +:+ t) = x.
Proof.
  unfold slice. rewrite substring_skip.
  replace (String.length p + String.length x - String.length p)
    with (String.length x) by lia.
  apply substring_0_app.
Qed.

Lemma find_start_first x r :
  find REF_START (x +:+ "{") 0 = None →
  find REF_START (x +:+ REF_START +:+ r) 0 = Some (String.length x).
Proof. apply (index2_first "{"). Qed.

Lemma find_end_first x r :
  find REF_END (x +:+ "}") 0 = None →
  find REF_END (x +:+ REF_END +:+ r) 0 = Some (String.length x).
Proof. apply (index2_first "}"). Qed.

(** One round of the loop over a gap and the marker that follows it. *)
Lemma chunk_loop_marker fuel lookup p ref_end acc x name o rest :
  ref_end_ok p ref_end → gap_ok lookup (x, name, o) →
  chunk_loop (S fuel) lookup (p +:+ x +:+ text_marker name +:+ rest)
    (String.length p) ref_end acc
  = chunk_loop fuel lookup
      ((p +:+ x +:+ text_marker name) +:+ rest)
      (String.length (p +:+ x +:+ text_marker name))
      (String.length (p +:+ x +:+ REF_START +:+ name))
      (add_text_chunk acc (strip x) ++ [CMod o]).
Proof.
  intros Hre (Hx & Hname & Hstrip & Hlook).
  set (text := p +:+ x +:+ text_marker name +:+ rest).
  assert (text = (p +:+ x +:+ REF_START) +:+ name +:+ REF_END +:+ rest)
    as Htext2.
  { unfold text, text_marker. by rewrite !app_assoc_s. }
  assert (text = (p +:+ x +:+ text_marker name) +:+ rest) as Htext3.
  { unfold text. by rewrite !app_assoc_s. }
  assert (find REF_START text ref_end
          = Some (String.length p + String.length x)) as Hstart.
  { unfold text. rewrite find_from_ref_end by done. unfold text_marker.
    rewrite !app_assoc_s. by rewrite find_start_first. }
  assert (String.length (p +:+ x +:+ REF_START)
          = String.length p + String.length x + String.length REF_START)
    as Hlen2.
  { rewrite !length_app. lia. }
  assert (find REF_END text
            (String.length p + String.length x + String.length REF_START)
          = Some (String.length (p +:+ x +:+ REF_START)
                  + String.length name)) as Hend.
  { rewrite <- Hlen2, Htext2. unfold find at 1. rewrite index_skip.
    fold (find REF_END (name +:+ REF_END +:+ rest) 0).
    by rewrite find_end_first. }
  cbn [chunk_loop]. fold text.
  assert ((String.length p <? String.length text) = true) as ->.
  { apply Nat.ltb_lt. rewrite Htext2, !length_app. simpl. lia. }
  rewrite Hstart, Hend.
  assert (slice (String.length p + String.length x + String.length REF_START)
            (String.length (p +:+ x +:+ REF_START) + String.length name) text
          = name) as ->.
  { rewrite <- Hlen2, Htext2. apply slice_middle. }
  rewrite Hstrip, Hlook.
  assert (slice (String.length p) (String.length p + String.length x) text
          = x) as ->.
  { apply slice_middle. }
  rewrite <- Htext3. f_equal.
  - unfold text_marker. rewrite !length_app. simpl. lia.
  - rewrite !length_app. simpl. lia.
Qed.

Lemma chunk_loop_gaps lookup gs xf :
  Forall (gap_ok lookup) gs → no_ref_start xf →
  ∀ fuel p ref_end acc,
    length gs < fuel → ref_end_ok p ref_end →
    chunk_loop fuel lookup (p +:+ gap_text gs xf) (String.length p) ref_end
      acc
    = Some (Ok (acc ++ gap_chunks gs xf)).
Proof.
  intros Hgs Hxf. induction Hgs as [|[[x name] o] gs Hg Hgs IH];
    intros fuel p ref_end acc Hf Hre.
  - destruct fuel as [|fuel]; [simpl in Hf; lia|].
    cbn [gap_text gap_chunks chunk_loop].
    destruct (String.length p <? String.length (p +:+ xf)) eqn:Hlt.
    + rewrite find_from_ref_end by done. rewrite Hxf. simpl.
      by rewrite slice_from_skip, add_text_chunk_app.
    + apply Nat.ltb_ge in Hlt. rewrite length_app in Hlt.
      destruct xf; [|simpl in Hlt; lia]. by rewrite app_nil_r.
  - destruct fuel as [|fuel]; [simpl in Hf; lia|].
    cbn [gap_text gap_chunks].
    rewrite (chunk_loop_marker fuel lookup p ref_end acc x name o) by done.
    rewrite IH.
    + do 2 f_equal. rewrite (add_text_chunk_app acc).
      by rewrite <- !app_assoc.
    + simpl in Hf. lia.
    + right. exists (p +:+ x +:+ REF_START +:+ name). split; [|done].
      unfold text_marker. by rewrite !app_assoc_s.
Qed.

End LoopOnGaps.

Section GapsOfChunks.
Import PyStr modality.

Lemma gap_text_to_gaps pre i n chunks :
  gap_text (to_gaps pre i n chunks).1 (to_gaps pre i n chunks).2
  = pre +:+ fused LF i n chunks.
Proof.
  revert pre i n. induction chunks as [|[s|o] rest IH]; intros pre i n.
  - simpl. by rewrite app_empty_r.
  - cbn [to_gaps fused]. rewrite IH. by rewrite !app_assoc_s.
  - cbn [to_gaps fused]. specialize (IH EmptyString (S i) (S n)).
    destruct (to_gaps EmptyString (S i) (S n) rest) as [gs xf].
    cbn [fst snd gap_text] in *. rewrite IH, append_nil.
    by rewrite !app_assoc_s.
Qed.

Lemma gap_text_length gs xf : length gs ≤ String.length (gap_text gs xf).
Proof.
  induction gs as [|[[x name] o] gs IH]; simpl; [lia|].
  unfold text_marker. rewrite !length_app. simpl. lia.
Qed.

Lemma plain_char_pretty y : plain_char (pretty_N_char y) = true.
Proof. unfold pretty_N_char. by repeat case_match. Qed.

Lemma plain_chars_pretty_go x s :
  plain_chars s = true → plain_chars (pretty_N_go x s) = true.
Proof.
  revert s. induction (N.lt_wf_0 x) as [x _ IH]; intros s Hs.
  destruct (decide (x = 0)%N) as [->|Hx]; [by rewrite pretty_N_go_0|].
  rewrite pretty_N_go_step by lia. apply IH.
  - apply N.div_lt; lia.
  - simpl. by rewrite plain_char_pretty.
Qed.

Lemma plain_chars_obj_name n : plain_chars (obj_name n) = true.
Proof.
  unfold obj_name. rewrite plain_chars_app. apply andb_true_iff.
  split; [done|]. unfold pretty, pretty_nat, pretty, pretty_N.
  case_decide; [done|]. by apply plain_chars_pretty_go.
Qed.

Lemma sep_blank i : blank (if 0 <? i then LF else EmptyString).
Proof. by destruct (0 <? i). Qed.

(** Text kept pending before a separator holds no start delimiter once the
    separator and whatever follows without one are appended. *)
Lemma no_ref_start_sep pre i s :
  (i = 0 → pre = EmptyString) → no_ref_start pre → no_ref_start s →
  no_ref_start (pre +:+ (if 0 <? i then LF else EmptyString) +:+ s).
Proof.
  intros Hi Hpre Hs. destruct i as [|i].
  - by rewrite Hi.
  - cbn [Nat.ltb Nat.leb]. by apply (index2_none_join "{").
Qed.

Lemma to_gaps_ok lookup chunks pre i n :
  well_formed chunks →
  (i = 0 → pre = EmptyString) → no_ref_start pre →
  (blank pre ∨ match chunks with CText _ :: _ => False | _ => True end) →
  (∀ k o, modalities chunks !! k = Some o →
          lookup (obj_name (n + k)) = Some (Ok (inl o))) →
  Forall (gap_ok lookup) (to_gaps pre i n chunks).1
  ∧ no_ref_start (to_gaps pre i n chunks).2
  ∧ gap_chunks (to_gaps pre i n chunks).1 (to_gaps pre i n chunks).2
    = add_text_chunk [] (strip pre) ++ (trimmed <$> chunks).
Proof.
  revert pre i n. induction chunks as [|[s|o] rest IH];
    intros pre i n Hwf Hi Hpre Hstate Hlook.
  - simpl. by rewrite app_nil_r.
  - destruct Hwf as ((Hs & Hns) & Hnext & Hwf).
    destruct Hstate as [Hblank|[]].
    cbn [to_gaps].
    destruct (IH (pre +:+ (if 0 <? i then LF else EmptyString) +:+ s)
                (S i) n) as (Hok & Hxf & Hch); try done.
    { by apply no_ref_start_sep. }
    { right. by destruct rest as [|[] ?]. }
    split_and!; [done..|]. rewrite Hch.
    rewrite !strip_blank_l by (done || apply sep_blank).
    rewrite (strip_blank pre) by done.
    unfold add_text_chunk at 1 2. cbn [fmap list_fmap trimmed].
    by destruct (strip s).
  - cbn [to_gaps].
    destruct (IH EmptyString (S i) (S n)) as (Hok & Hxf & Hch); try done.
    { by left. }
    { intros k o' Hk. replace (S n + k) with (n + S k) by lia.
      by apply Hlook. }
    destruct (to_gaps EmptyString (S i) (S n) rest) as [gs xf].
    cbn [fst snd] in *. split_and!; [|done|].
    + apply Forall_cons. split; [|done]. split_and!.
      * rewrite app_assoc_s. apply no_ref_start_sep; done.
      * apply (index2_none_plain "}"); [done|apply plain_chars_obj_name].
      * apply strip_plain, plain_chars_obj_name.
      * rewrite <- (Nat.add_0_r n). by apply Hlook.
    + cbn [gap_chunks]. rewrite Hch, strip_blank_r by apply sep_blank.
      done.
Qed.

(** Stripping the text strips the first and the last gap. *)
Lemma rstrip_gap_text g gs xf :
  rstrip (gap_text (g :: gs) xf) = gap_text (g :: gs) (rstrip xf)
  ∧ is_empty (rstrip (gap_text (g :: gs) xf)) = false.
Proof.
  revert g. induction gs as [|g' gs IH]; intros [[x name] o].
  - cbn [gap_text]. unfold text_marker.
    assert (x +:+ (REF_START +:+ name +:+ REF_END) +:+ xf
            = (x +:+ REF_START +:+ name +:+ "}") +:+ String "}" xf) as ->.
    { by rewrite !app_assoc_s. }
    assert (rstrip (String "}" xf) = String "}" (rstrip xf)) as Hr.
    { by apply rstrip_start. }
    rewrite rstrip_app_nonblank by by rewrite Hr.
    rewrite Hr. split; [by rewrite !app_assoc_s|].
    by apply append_nonempty.
  - destruct (IH g') as [Hr He]. cbn [gap_text] in *.
    rewrite <- app_assoc_s, rstrip_app_nonblank by done.
    rewrite Hr. split; [by rewrite app_assoc_s|].
    by apply append_nonempty; rewrite <- Hr.
Qed.

Lemma strip_gap_text gs xf :
  strip (gap_text gs xf)
  = gap_text (strip_gaps gs xf).1 (strip_gaps gs xf).2.
Proof.
  destruct gs as [|[[x name] o] gs]; [done|].
  unfold strip. rewrite (proj1 (rstrip_gap_text _ _ _)).
  cbn [strip_gaps fst snd gap_text]. unfold text_marker.
  change (REF_START +:+ name +:+ REF_END)
    with (String "{" (String "{" (name +:+ REF_END))).
  rewrite !append_cons. by rewrite lstrip_app_start.
Qed.

Lemma gap_chunks_rstrip gs xf : gap_chunks gs (rstrip xf) = gap_chunks gs xf.
Proof.
  induction gs as [|[[x name] o] gs IH]; simpl.
  - by rewrite strip_rstrip.
  - by rewrite IH.
Qed.

Lemma strip_gaps_ok lookup gs xf :
  Forall (gap_ok lookup) gs → no_ref_start xf →
  Forall (gap_ok lookup) (strip_gaps gs xf).1
  ∧ no_ref_start (strip_gaps gs xf).2
  ∧ gap_chunks (strip_gaps gs xf).1 (strip_gaps gs xf).2 = gap_chunks gs xf
  ∧ length (strip_gaps gs xf).1 = length gs.
Proof.
  intros Hgs Hxf.
  assert (no_ref_start (rstrip xf)) as Hr.
  { destruct (rstrip_split xf) as [w Hw]. unfold no_ref_start in *.
    rewrite Hw in Hxf. by apply (index2_none_app_l "{") in Hxf. }
  destruct gs as [|[[x name] o] gs]; cbn [strip_gaps fst snd].
  - split_and!; [done| |by simpl; rewrite strip_idemp|done].
    unfold strip. destruct (lstrip_split (rstrip xf)) as [w Hw].
    unfold no_ref_start in *. rewrite Hw in Hr.
    by apply index_none_app_r in Hr.
  - apply Forall_cons in Hgs as [(Hx & Hrest) Hgs].
    split_and!; [|done| |done].
    + apply Forall_cons. split; [|done]. split; [|done].
      destruct (lstrip_split x) as [w Hw]. rewrite Hw, app_assoc_s in Hx.
      by apply index_none_app_r in Hx.
    + cbn [gap_chunks]. by rewrite strip_lstrip, gap_chunks_rstrip.
Qed.

End GapsOfChunks.

Section RoundTripTheorem.
Import PyStr modality.

Lemma parse_go_plain s buf keys :
  plain_chars s = true →
  pg.parse_go s buf 0 keys = Ok (pg.flush_name (buf +:+ s) keys).
Proof.
  revert buf. induction s as [|c s IH]; intros buf Hs.
  - simpl. by rewrite app_empty_r.
  - cbn [plain_chars] in Hs. apply andb_true_iff in Hs as [Hc Hs].
    cbn [pg.parse_go]. unfold plain_char in Hc.
    rewrite !andb_true_iff, !negb_true_iff, !bool_decide_eq_false in Hc.
    destruct Hc as ((((_ & _) & Hdot) & Hopen) & Hclose).
    rewrite !decide_False by done. rewrite IH by done.
    unfold pg.snoc. by rewrite app_assoc_s.
Qed.

Lemma parse_plain s :
  plain_chars s = true → is_empty s = false → pg.parse s = Ok [KName s].
Proof.
  intros Hs He. unfold pg.parse. rewrite parse_go_plain by done.
  rewrite append_nil. unfold pg.flush_name. by rewrite He.
Qed.

Lemma obj_name_nonempty k : is_empty (obj_name k) = false.
Proof. done. Qed.

Lemma obj_name_not_text k : obj_name k ≠ PATH_TEXT.
Proof. unfold obj_name, PATH_TEXT. rewrite !append_cons. discriminate. Qed.

Lemma unref_maybe_ref o : unref (maybe_ref o) = VMod o.
Proof. unfold maybe_ref. by destruct (owned o). Qed.

Lemma get_obj m k o d :
  metadata m !! obj_name k = Some (maybe_ref o) →
  get m (obj_name k) d = Ok (AVal (VMod o)).
Proof.
  intros Hk.
  rewrite (get_metadata _ _ _ [KName (obj_name k)])
    by (apply obj_name_nonempty || apply obj_name_not_text
        || (apply parse_plain;
            (apply plain_chars_obj_name || apply obj_name_nonempty))).
  cbn [pg.query pg.get_item]. rewrite Hk. simpl. by rewrite unref_maybe_ref.
Qed.

Lemma from_chunks_run c chunks separator sender_ :
  default_sender c = Some sender_ →
  from_chunks c chunks separator
  = Ok (mkMessage c (strip (fused separator 0 0 chunks)) sender_
          (recorded 0 chunks ∅) [] None).
Proof.
  intros Hc. unfold from_chunks. rewrite from_chunks_loop_fused, append_nil.
  unfold __init__. simpl. rewrite Hc. simpl.
  by rewrite (left_id_L ∅ (∪)).
Qed.

Lemma default_sender_variant c :
  c ≠ cMessage → ∃ sender_, default_sender c = Some sender_.
Proof. destruct c; [done|eauto..]. Qed.

Lemma chunk_round_trip h fuel m chunks :
  text m = strip (fused LF 0 0 chunks) →
  metadata m = recorded 0 chunks ∅ →
  well_formed chunks → String.length (text m) < fuel →
  chunk fuel h m = Some (Ok (trimmed <$> chunks)).
Proof.
  intros Htext Hmd Hwf Hfuel. unfold chunk.
  set (lookup := λ var_name, get_modality fuel h m var_name () true).
  assert (∀ k o, modalities chunks !! k = Some o →
                 lookup (obj_name (0 + k)) = Some (Ok (inl o))) as Hlook.
  { intros k o Hk. change (0 + k) with k. unfold lookup.
    destruct fuel as [|fuel]; [lia|].
    apply get_modality_own. apply get_obj.
    rewrite Hmd, recorded_lookup, decide_True by lia.
    by rewrite Nat.sub_0_r, Hk. }
  destruct (to_gaps_ok lookup chunks EmptyString 0 0)
    as (Hok & Hxf & Hch); [done..|by left|done|].
  pose proof (gap_text_to_gaps EmptyString 0 0 chunks) as Hgt.
  destruct (to_gaps EmptyString 0 0 chunks) as [gs xf].
  cbn [fst snd] in *. rewrite append_nil in Hgt.
  destruct (strip_gaps_ok lookup gs xf Hok Hxf) as (Hok' & Hxf' & Hch' & Hlen).
  pose proof (strip_gap_text gs xf) as Hst.
  destruct (strip_gaps gs xf) as [gs' xf']. cbn [fst snd] in *.
  assert (text m = gap_text gs' xf') as Htext'.
  { by rewrite Htext, <- Hgt, Hst. }
  assert (length gs' < fuel) as Hfuel'.
  { pose proof (gap_text_length gs' xf') as Hl. rewrite Htext' in Hfuel. lia. }
  pose proof (chunk_loop_gaps lookup gs' xf' Hok' Hxf' fuel EmptyString 0 []
                Hfuel' (or_introl eq_refl)) as Hloop.
  rewrite append_nil in Hloop. cbn [String.length app] in Hloop.
  by rewrite Htext', Hloop, Hch', Hch.
Qed.

(** C3, as amended.  For a role-variant class and any chunks and separator,
    [from_chunks] builds a message whose text is the trimmed fusion of the
    chunks (separator between them, each modality written as the marker of
    its name) and whose metadata holds exactly the modality objects, under
    the names [obj0], [obj1], ... in chunk order, so that [get] returns
    them.  With the default separator, and when every text chunk is
    non-blank and free of start delimiters and no two text chunks are
    adjacent, [chunk] gives the chunks back, text chunks trimmed. *)
Theorem from_chunks_round_trip (c : MessageClass) (chunks : list Chunk)
    (separator : string) :
  c ≠ cMessage →
  ∃ m, from_chunks c chunks separator = Ok m
    ∧ text m = strip (fused separator 0 0 chunks)
    ∧ (∀ k, metadata m !! obj_name k = maybe_ref <$> modalities chunks !! k)
    ∧ (∀ key, is_Some (metadata m !! key) →
              ∃ k, key = obj_name k ∧ k < length (modalities chunks))
    ∧ (∀ k o d, modalities chunks !! k = Some o →
                get m (obj_name k) d = Ok (AVal (VMod o)))
    ∧ (separator = LF → well_formed chunks →
       ∀ h fuel, String.length (text m) < fuel →
                 chunk fuel h m = Some (Ok (trimmed <$> chunks))).
Proof.
  intros Hc. destruct (default_sender_variant c Hc) as [sender_ Hs].
  eexists. split; [by apply from_chunks_run|]. cbn [text metadata].
  assert (∀ k, recorded 0 chunks ∅ !! obj_name k
               = maybe_ref <$> modalities chunks !! k) as Hrec.
  { intros k. rewrite recorded_lookup, decide_True, Nat.sub_0_r by lia.
    destruct (modalities chunks !! k); [done|]. apply lookup_empty. }
  split_and!; [done|done|..].
  - intros key [Hk|(k & -> & Hk)]%recorded_keys.
    + rewrite lookup_empty in Hk. by destruct Hk.
    + by exists k.
  - intros k o d Hk. apply get_obj. cbn [metadata]. by rewrite Hrec, Hk.
  - intros -> Hwf h fuel Hfuel. by apply chunk_round_trip.
Qed.

Lemma from_chunks_round_trip_witness :
  let img := mkModality "image" false in
  let chunks := [CText " describe "; CMod img; CMod img; CText "briefly"] in
  ∃ m, from_chunks cUserMessage chunks LF = Ok m
    ∧ metadata m !! "obj1" = Some (VMod img)
    ∧ chunk 60 [] m
      = Some (Ok [CText "describe"; CMod img; CMod img; CText "briefly"]).
Proof.
  intros img chunks.
  destruct (from_chunks_round_trip cUserMessage chunks LF)
    as (m & Hm & Ht & Hmd & _ & _ & Hrt); [discriminate|].
  exists m. split_and!; [exact Hm|exact (Hmd 1)|].
  apply (Hrt eq_refl).
  - unfold chunks. cbn [well_formed]. split_and!; try done;
      split; (discriminate || reflexivity).
  - rewrite Ht. vm_compute. lia.
Defined.

(** The counterexample to C3 as stated: two adjacent non-empty text chunks
    come back as one. *)
Lemma adjacent_texts_fuse :
  no_adjacent_empty [CText "a"; CText "b"]
  ∧ from_chunks cUserMessage [CText "a"; CText "b"] LF
    = Ok (mkMessage cUserMessage ("a" +:+ LF +:+ "b") "User" ∅ [] None)
  ∧ chunk 10 []
      (mkMessage cUserMessage ("a" +:+ LF +:+ "b") "User" ∅ [] None)
    = Some (Ok [CText ("a" +:+ LF +:+ "b")])
  ∧ trimmed <$> [CText "a"; CText "b"] = [CText "a"; CText "b"]
  ∧ length [CText ("a" +:+ LF +:+ "b")] ≠ length [CText "a"; CText "b"].
Proof.
  split_and!.
  - simpl. split; [|done]. by intros [? _].
  - vm_compute. reflexivity.
  - vm_compute. reflexivity.
  - reflexivity.
  - simpl. lia.
Qed.

End RoundTripTheorem.

(** * Further properties *)

(** ** Source-chain traversal, continued *)

Lemma last_reverse {A} (l : list A) : list.last (reverse l) = head l.
Proof. destruct l as [|x l]; [done|]. by rewrite reverse_cons, last_snoc. Qed.

Lemma head_reverse {A} (l : list A) : head (reverse l) = list.last l.
Proof. by rewrite <- last_reverse, reverse_involutive. Qed.

(** X1.  [last(tag)] is the last entry of [trace(tag)]: the early-exit walk
    and the filtered full walk agree, and so do the accessors fixed to the
    tags of the language-model calls. *)
Theorem last_is_last_of_trace (h : Heap) (self : addr) (l : list addr)
    (fuel : nat) :
  chain h (Some self) l → length l < fuel →
  (∀ t, ∃ tr, trace fuel h self (Some t) = Some tr
              ∧ last fuel h self t = Some (list.last tr))
  ∧ (∃ tr, lm_responses fuel h self = Some tr
           ∧ lm_response fuel h self = Some (list.last tr))
  ∧ (∃ tr, lm_inputs fuel h self = Some tr
           ∧ lm_input fuel h self = Some (list.last tr))
  ∧ (∃ tr, lm_outputs fuel h self = Some tr
           ∧ lm_output fuel h self = Some (list.last tr)).
Proof.
  intros Hc Hf.
  assert (∀ t, ∃ tr, trace fuel h self (Some t) = Some tr
                     ∧ last fuel h self t = Some (list.last tr)) as H.
  { intros t. eexists. split.
    - unfold trace. by rewrite (trace_loop_chain _ (Some t) _ l).
    - unfold last. rewrite (last_loop_chain _ _ _ l) by done.
      by rewrite app_nil_l, last_reverse. }
  split_and!; [done|apply H..].
Qed.

Lemma last_is_last_of_trace_witness :
  let root_ := mkMessage cUserMessage "q" "User" ∅ ["lm-input"] None in
  let m1 := mkMessage cAIMessage "a1" "AI" ∅ ["lm-response"] (Some 0) in
  let m2 := mkMessage cAIMessage "a2" "AI" ∅ ["lm-response"] (Some 1) in
  let h := [root_; m1; m2] in
  ∃ tr, lm_responses 4 h 2 = Some tr
        ∧ lm_response 4 h 2 = Some (list.last tr).
Proof.
  intros root_ m1 m2 h.
  assert (chain h (Some 2) [2; 1; 0]) as Hc.
  { repeat (eapply chain_cons; [reflexivity|]; simpl). apply chain_nil. }
  exact (proj1 (proj2 (last_is_last_of_trace h 2 [2; 1; 0] 4 Hc
                         ltac:(simpl; lia)))).
Defined.

Lemma sublist_reverse_2 {A} (l1 l2 : list A) :
  sublist l1 l2 → sublist (reverse l1) (reverse l2).
Proof.
  induction 1 as [|x l1 l2 _ IH|x l1 l2 _ IH]; [done|..];
    rewrite ?reverse_cons.
  - by apply sublist_app.
  - by apply sublist_inserts_r.
Qed.

(** X2.  The untagged trace starts at the root and ends at the message
    itself, and every tagged trace is a sublist of it. *)
Theorem trace_ends (h : Heap) (self : addr) (l : list addr) (fuel : nat) :
  chain h (Some self) l → length l < fuel →
  ∃ tr, trace fuel h self None = Some tr
    ∧ head tr = root fuel h self
    ∧ list.last tr = Some self
    ∧ length tr = length l
    ∧ ∀ t tr', trace fuel h self (Some t) = Some tr' → sublist tr' tr.
Proof.
  intros Hc Hf. exists (reverse l). split_and!.
  - unfold trace. by rewrite (trace_loop_chain _ None _ l).
  - rewrite (root_chain h self l) by (done || lia). apply head_reverse.
  - rewrite last_reverse. by inversion Hc.
  - apply length_reverse.
  - intros t tr'. unfold trace.
    rewrite (trace_loop_chain _ (Some t) _ l) by done.
    intros [= <-]. simpl. apply sublist_reverse_2, sublist_filter.
Qed.

Lemma trace_ends_witness :
  let root_ := mkMessage cUserMessage "q" "User" ∅ [] None in
  let m1 := mkMessage cAIMessage "a1" "AI" ∅ [] (Some 0) in
  let h := [root_; m1] in
  ∃ tr, trace 3 h 1 None = Some tr ∧ head tr = root 3 h 1
        ∧ list.last tr = Some 1.
Proof.
  intros root_ m1 h.
  assert (chain h (Some 1) [1; 0]) as Hc.
  { repeat (eapply chain_cons; [reflexivity|]; simpl). apply chain_nil. }
  destruct (trace_ends h 1 [1; 0] 3 Hc ltac:(simpl; lia))
    as (tr & Ht & Hh & Hl & _).
  by exists tr.
Defined.

Lemma trace_loop_closed h P tag fuel a acc :
  source_closed h P → P a → trace_loop fuel h tag (Some a) acc = None.
Proof.
  intros Hcl. revert a acc. induction fuel as [|fuel IH]; intros a acc Ha;
    [done|].
  destruct (Hcl a Ha) as (m & s & Hm & Hs & HPs).
  simpl. rewrite Hm. simpl. rewrite Hs. by apply IH.
Qed.

(** X3.  The walkers do not detect cycles: from a message whose source
    chain never ends (it stays inside a set of messages that all have a
    source in the set), [root] and [trace] return for no amount of fuel,
    and neither does [last] for a tag that no message of the set carries. *)
Theorem cyclic_chain_never_returns (h : Heap) (P : addr → Prop) (a : addr) :
  source_closed h P → P a →
  ∀ fuel,
    root fuel h a = None
    ∧ (∀ tag, trace fuel h a tag = None)
    ∧ (∀ t, (∀ x, P x → has_tag h t x = false) → last fuel h a t = None).
Proof.
  intros Hcl Ha fuel. split_and!.
  - revert a Ha. induction fuel as [|fuel IH]; intros a Ha; [done|].
    destruct (Hcl a Ha) as (m & s & Hm & Hs & HPs).
    simpl. rewrite Hm. simpl. rewrite Hs. by apply IH.
  - intros tag. by eapply trace_loop_closed.
  - intros t Ht. unfold last. revert a Ha.
    induction fuel as [|fuel IH]; intros a Ha; [done|].
    destruct (Hcl a Ha) as (m & s & Hm & Hs & HPs).
    simpl. rewrite Hm. simpl.
    specialize (Ht a Ha). rewrite (has_tag_lookup _ _ _ _ Hm) in Ht.
    rewrite Ht, Hs. by apply IH.
Qed.

Lemma cyclic_chain_never_returns_witness :
  let m := source_setter (Some 0) (UserMessage "loop") in
  root 100 [m] 0 = None ∧ trace 100 [m] 0 None = None
  ∧ last 100 [m] 0 "lm-input" = None.
Proof.
  intros m.
  assert (source_closed [m] (λ a, a = 0)) as Hcl.
  { intros a ->. by exists m, 0. }
  destruct (cyclic_chain_never_returns [m] (λ a, a = 0) 0 Hcl eq_refl 100)
    as (Hr & Ht & Hl).
  split_and!; [exact Hr|apply Ht|apply Hl].
  by intros x ->.
Defined.

Lemma chain_snoc h m cur l : chain h cur l → chain (h ++ [m]) cur l.
Proof.
  induction 1 as [|a m' l Ha Hc IH]; [constructor|].
  econstructor; [|done]. by apply lookup_app_l_Some.
Qed.

Lemma filter_has_tag_snoc h m t cur l :
  chain h cur l →
  filter (has_tag (h ++ [m]) t) l = filter (has_tag h t) l.
Proof.
  induction 1 as [|a m' l Ha Hc IH]; [done|].
  rewrite !filter_cons, IH, (has_tag_lookup _ _ _ _ Ha).
  by rewrite (has_tag_lookup (h ++ [m]) _ _ m')
    by by apply lookup_app_l_Some.
Qed.

(** X4.  A message derived from [self] (a new object whose source is
    [self]) extends the chain by itself: its trace is the trace of [self]
    followed by the new message, its root is the root of [self], and
    [last] returns the new message when it carries the tag and the answer
    of [self] otherwise.  The walks from the older messages are unchanged. *)
Theorem derived_message_extends_chain (h : Heap) (self : addr)
    (l : list addr) (m : Message) (fuel : nat) :
  chain h (Some self) l → source m = Some self → S (length l) < fuel →
  let h' := h ++ [m] in
  let new := length h in
  (∃ tr, trace fuel h self None = Some tr
         ∧ trace fuel h' new None = Some (tr ++ [new]))
  ∧ root fuel h' new = root fuel h self
  ∧ (∀ t, last fuel h' new t =
            if bool_decide (t ∈ tags m) then Some (Some new)
            else last fuel h self t)
  ∧ (∀ tag, trace fuel h' self tag = trace fuel h self tag)
  ∧ root fuel h' self = root fuel h self.
Proof.
  intros Hc Hs Hf h' new.
  assert (h' !! new = Some m) as Hnew by by apply list_lookup_middle.
  assert (h' = h ++ [m]) as Hh' by done. clearbody h'. subst h'.
  set (h' := h ++ [m]) in *.
  assert (chain h' (Some self) l) as Hc' by by apply chain_snoc.
  assert (chain h' (Some new) (new :: l)) as Hcn.
  { econstructor; [done|]. by rewrite Hs. }
  split_and!.
  - exists (reverse l). unfold trace.
    rewrite (trace_loop_chain _ None _ l) by (done || lia).
    rewrite (trace_loop_chain _ None _ (new :: l)) by (done || simpl; lia).
    by rewrite !app_nil_l, reverse_cons.
  - rewrite (root_chain h' new (new :: l)) by (done || simpl; lia).
    rewrite (root_chain h self l) by (done || lia).
    inversion Hc; subst. done.
  - intros t. unfold last.
    rewrite (last_loop_chain _ _ _ (new :: l)) by (done || simpl; lia).
    rewrite (last_loop_chain _ _ _ l) by (done || lia).
    rewrite filter_cons, (has_tag_lookup _ _ _ _ Hnew).
    case_bool_decide.
    + by rewrite decide_True.
    + rewrite decide_False by (by intros ?).
      unfold h'. by rewrite (filter_has_tag_snoc _ _ _ _ _ Hc).
  - intros tag. unfold trace.
    rewrite !(trace_loop_chain _ tag _ l) by (done || lia).
    destruct tag; [|done]. unfold h'.
    by rewrite (filter_has_tag_snoc _ _ _ _ _ Hc).
  - by rewrite !(root_chain _ self l) by (done || lia).
Qed.

Lemma derived_message_extends_chain_witness :
  let root_ := mkMessage cUserMessage "q" "User" ∅ [] None in
  let m := mkMessage cAIMessage "a" "AI" ∅ ["lm-response"] (Some 0) in
  ∃ tr, trace 5 [root_] 0 None = Some tr
        ∧ trace 5 ([root_] ++ [m]) (length [root_]) None
          = Some (tr ++ [length [root_]]).
Proof.
  intros root_ m.
  assert (chain [root_] (Some 0) [0]) as Hc.
  { eapply chain_cons; [reflexivity|]. apply chain_nil. }
  exact (proj1 (derived_message_extends_chain [root_] 0 [0] m 5 Hc eq_refl
                  ltac:(simpl; lia))).
Defined.

(** ** Modality lookup, continued *)

Lemma messages_at_cons (h : Heap) a m l :
  h !! a = Some m → messages_at h (a :: l) = m :: messages_at h l.
Proof. intros Ha. unfold messages_at. simpl. by rewrite Ha. Qed.

(** X5.  Along a finite source chain, and with a recursion budget above
    its length, the nearest message at which the read of the name gives
    anything but [None] decides the lookup: a modality object there is the
    result; any other value there gives the default, and no message behind
    it is consulted; an exception of the read there (the name is no key
    path) is raised by the lookup.  When every message of the chain gives
    [None], the result is the default. *)
Theorem get_modality_nearest_decides {D} (h : Heap) (self : Message)
    (l : list addr) (var_name : string) (d : D) (b : bool) (fuel : nat) :
  chain h (source self) l → length l < fuel →
  get_modality fuel h self var_name d b =
    Some (match nearest_holder (self :: messages_at h l) var_name with
          | Some (Raise e) => Raise e
          | Some (Ok (AVal (VMod obj))) => Ok (inl obj)
          | _ => Ok (inr d)
          end).
Proof.
  revert self fuel. induction l as [|a l IH]; intros self fuel Hc Hf.
  - destruct fuel as [|fuel]; [lia|]. inversion Hc as [Hs|].
    cbn [get_modality nearest_holder]. unfold messages_at.
    cbn [omap list_omap nearest_holder].
    destruct (get self var_name VNone) as [[|[]]|]; try done.
    by rewrite <- Hs.
  - destruct fuel as [|fuel]; [simpl in Hf; lia|].
    inversion Hc as [|a' m l' Ha Hc' Hs]; subst.
    rewrite (messages_at_cons _ _ _ _ Ha).
    cbn [get_modality nearest_holder].
    destruct (get self var_name VNone) as [[|[]]|]; try done.
    rewrite <- Hs, Ha. simpl mbind. rewrite (IH m fuel Hc') by (simpl in Hf; lia).
    done.
Qed.

Lemma get_modality_nearest_decides_witness :
  let img := mkModality "img" false in
  let top :=
    mkMessage cUserMessage "t" "User" {["x" := VMod img]} [] None in
  let mid :=
    mkMessage cAIMessage "m" "AI" {["x" := VStr "shadow"]} [] (Some 0) in
  let low := mkMessage cAIMessage "l" "AI" ∅ [] (Some 1) in
  get_modality 3 [top; mid] low "x" (VStr "default") true
  = Some (Ok (inr (VStr "default")))
  ∧ get_modality 3 [top; mid] mid "x" (VStr "default") true
    = Some (Ok (inr (VStr "default")))
  ∧ get_modality 3 [top; mid] top "x" (VStr "default") true
    = Some (Ok (inl img))
  ∧ get_modality 3 [top; mid] low "x[" (VStr "default") true
    = Some (Raise ValueError).
Proof.
  intros img top mid low.
  assert (chain [top; mid] (Some 1) [1; 0]) as Hc.
  { repeat (eapply chain_cons; [reflexivity|]; simpl). apply chain_nil. }
  split_and!.
  - by rewrite (get_modality_nearest_decides [top; mid] low [1; 0] "x"
                  (VStr "default") true 3 Hc ltac:(simpl; lia)).
  - reflexivity.
  - reflexivity.
  - by rewrite (get_modality_nearest_decides [top; mid] low [1; 0] "x["
                  (VStr "default") true 3 Hc ltac:(simpl; lia)).
Defined.

(** ** The chunker, continued *)









(** ** References that do not resolve *)

Section Unresolved.
Import PyStr modality.

Lemma slice_width a n text : slice a (a + n) text = String.substring a n text.
Proof. unfold slice. by replace (a + n - a) with n by lia. Qed.

Lemma unclosed_from_none text ref_end :
  find REF_START text ref_end = None → ¬ unclosed_from text ref_end.
Proof.
  intros Hs (s & Hle & Hocc & _). rewrite slice_width in Hocc.
  by apply (String.index_correct3 ref_end s REF_START text Hs).
Qed.

Lemma unclosed_from_here text ref_end ref_start :
  find REF_START text ref_end = Some ref_start →
  find REF_END text (ref_start + String.length REF_START) = None →
  unclosed_from text ref_end.
Proof.
  intros Hs He. exists ref_start. split_and!; [by eapply find_ge| |done].
  rewrite slice_width. by apply (String.index_correct1 ref_end).
Qed.

(** An end delimiter found behind a start delimiter does not decide
    whether a start delimiter is left open: the scan may go on from it. *)
Lemma unclosed_from_step text ref_end ref_start ref_end' :
  find REF_START text ref_end = Some ref_start →
  find REF_END text (ref_start + String.length REF_START) = Some ref_end' →
  unclosed_from text ref_end ↔ unclosed_from text ref_end'.
Proof.
  intros Hs He.
  apply find_ge in Hs as Hge. apply find_ge in He as Hge'.
  apply (String.index_correct1 _ _ REF_END) in He as Hend.
  split; intros (s & Hle & Hocc & Hnone); exists s;
    (split_and!; [|done..]); [|lia].
  destruct (decide (ref_end' ≤ s)) as [|Hlt]; [done|]. exfalso.
  destruct (decide (s + String.length REF_START ≤ ref_end')) as [Hfar|Hnear].
  { by apply (String.index_correct3 _ ref_end' REF_END text Hnone). }
  simpl in Hnear. assert (ref_end' = S s) as -> by lia.
  rewrite slice_width in Hocc. simpl String.length in Hocc.
  pose proof (String.substring_correct1 text s 2 1 ltac:(lia)) as H1.
  pose proof (String.substring_correct1 text (S s) 2 0 ltac:(lia)) as H2.
  rewrite Hocc in H1. simpl String.length in Hend. rewrite Hend in H2.
  replace (0 + S s) with (1 + s) in H2 by lia.
  rewrite <- H1 in H2. discriminate.
Qed.

(** With no name resolving to an object the loop never moves
    [chunk_start]: it ends by appending the rest of the text, as it is
    when a start delimiter is left open and trimmed otherwise. *)
Lemma chunk_loop_unresolved fuel lookup text chunk_start ref_end chunks :
  (∀ a b, lookup (strip (slice a b text)) = Some (Ok (inr ()))) →
  chunk_start < String.length text →
  String.length text - ref_end < fuel →
  (unclosed_from text ref_end →
   chunk_loop fuel lookup text chunk_start ref_end chunks
   = Some (Ok (chunks ++ [CText (slice_from chunk_start text)])))
  ∧ (¬ unclosed_from text ref_end →
     chunk_loop fuel lookup text chunk_start ref_end chunks
     = Some (Ok (add_text_chunk chunks
                   (strip (slice_from chunk_start text))))).
Proof.
  intros Hl Hlt. revert ref_end.
  induction fuel as [|fuel IH]; intros ref_end Hf; [lia|].
  cbn [chunk_loop]. rewrite (proj2 (Nat.ltb_lt _ _) Hlt).
  destruct (find REF_START text ref_end) as [ref_start|] eqn:Hs.
  2:{ split; [|done]. intros Hu. by apply unclosed_from_none in Hu. }
  destruct (find REF_END text (ref_start + String.length REF_START))
    as [ref_end'|] eqn:He.
  2:{ split; [by rewrite add_text_chunk_slice|].
      intros Hn. destruct Hn. by eapply unclosed_from_here. }
  rewrite Hl.
  rewrite (unclosed_from_step _ _ _ _ Hs He). apply IH.
  apply find_ge in Hs. apply find_ge in He as Hge. apply find_fits in He.
  simpl in Hge, He. lia.
Qed.

Lemma unclosed_spec text :
  unclosed text = true ↔ unclosed_from text 0.
Proof.
  unfold unclosed. rewrite existsb_exists. split.
  - intros (s & _ & [Hocc He]%andb_true_iff).
    apply bool_decide_eq_true in Hocc, He. exists s. split_and!; [lia|done..].
  - intros (s & _ & Hocc & He). exists s. split.
    + apply in_seq. split; [lia|]. simpl.
      destruct (decide (s < String.length text)) as [|Hge]; [done|].
      exfalso. rewrite slice_width in Hocc.
      pose proof (String.substring_correct1 text s
                    (String.length REF_START) 0 ltac:(simpl; lia))
        as H0.
      rewrite Hocc in H0. simpl in H0.
      assert (String.get s text = None) as Hnone.
      { clear -Hge. revert s Hge. induction text as [|c t IHt]; intros s Hge;
          [by destruct s|].
        destruct s as [|s]; [simpl in Hge; lia|]. simpl. apply IHt.
        simpl in Hge. lia. }
      by rewrite Hnone in H0.
    + apply andb_true_iff. split; by apply bool_decide_eq_true.
Qed.

Lemma parse_go_no_brackets s buf keys :
  no_brackets s = true → ∃ keys', pg.parse_go s buf 0 keys = Ok keys'.
Proof.
  revert buf keys. induction s as [|c s IH]; intros buf keys Hs; [by eexists|].
  cbn [no_brackets] in Hs.
  rewrite !andb_true_iff, !negb_true_iff, !bool_decide_eq_false in Hs.
  destruct Hs as [[Hopen Hclose] Hs]. cbn [pg.parse_go].
  rewrite !decide_False by done. case_decide; by apply IH.
Qed.

Lemma no_brackets_substring a n s :
  no_brackets s = true → no_brackets (String.substring a n s) = true.
Proof.
  revert a n. induction s as [|c s IH]; intros a n Hs.
  { by destruct a, n. }
  cbn [no_brackets] in Hs. apply andb_true_iff in Hs as [Hc Hs].
  destruct a as [|a]; simpl.
  - destruct n as [|n]; [done|]. cbn [no_brackets]. rewrite Hc. simpl.
    by apply IH.
  - by apply IH.
Qed.

Lemma no_brackets_lstrip s : no_brackets s = true → no_brackets (lstrip s) = true.
Proof.
  induction s as [|c s IH]; [done|]. intros Hs. simpl.
  destruct (isspace c); [|done]. apply IH.
  cbn [no_brackets] in Hs. by apply andb_true_iff in Hs as [_ Hs].
Qed.

Lemma no_brackets_rstrip s : no_brackets s = true → no_brackets (rstrip s) = true.
Proof.
  induction s as [|c s IH]; [done|]. intros Hs. simpl.
  cbn [no_brackets] in Hs. apply andb_true_iff in Hs as [Hc Hs].
  destruct (isspace c && is_empty (rstrip s)); [done|].
  cbn [no_brackets]. rewrite Hc. simpl. by apply IH.
Qed.

Lemma get_modality_bare {D} fuel h self var_name ks (d : D) b :
  metadata self = ∅ → source self = None → pg.parse var_name = Ok ks →
  get_modality (S fuel) h self var_name d b = Some (Ok (inr d)).
Proof.
  intros Hm Hs Hks. cbn [get_modality]. rewrite Hs. unfold get.
  destruct (PyStr.is_empty var_name); [done|].
  destruct (decide (var_name = PATH_TEXT)); [done|].
  unfold pg.sym_get. rewrite Hks, Hm. simpl.
  destruct ks as [|[k|i] rest]; [done|..];
    cbn [pg.query pg.get_item]; by rewrite ?lookup_empty.
Qed.

(** X7.  A reference that resolves to no object stays in the text.  When
    none of the names the text can refer to resolves, [chunk] returns the
    whole text as one chunk: untrimmed when some start delimiter of the
    text has no end delimiter behind it, and trimmed otherwise (no chunk at
    all when the trimmed text is empty).  This is the case of a message
    without metadata and without source whose text has no square
    bracket. *)
Theorem chunk_unresolved (h : Heap) (self : Message) (fuel : nat) :
  String.length (text self) < fuel →
  ((∀ a b, get_modality fuel h self (strip (slice a b (text self))) () true
           = Some (Ok (inr ()))) →
   chunk fuel h self
   = Some (Ok (if unclosed (text self) then [CText (text self)]
               else add_text_chunk [] (strip (text self)))))
  ∧ (metadata self = ∅ → source self = None →
     no_brackets (text self) = true →
     chunk fuel h self
     = Some (Ok (if unclosed (text self) then [CText (text self)]
                 else add_text_chunk [] (strip (text self))))).
Proof.
  intros Hf.
  assert ((∀ a b, get_modality fuel h self (strip (slice a b (text self)))
                    () true = Some (Ok (inr ()))) →
          chunk fuel h self
          = Some (Ok (if unclosed (text self) then [CText (text self)]
                      else add_text_chunk [] (strip (text self))))) as Hgen.
  { intros Hl. unfold chunk.
    destruct (decide (0 < String.length (text self))) as [Hpos|Hz].
    - destruct (chunk_loop_unresolved fuel
                  (λ var_name, get_modality fuel h self var_name () true)
                  (text self) 0 0 [] Hl Hpos ltac:(lia)) as [Hopen Hclosed].
      destruct (unclosed (text self)) eqn:Hu.
      + apply unclosed_spec in Hu. by rewrite Hopen, slice_from_0.
      + rewrite Hclosed, slice_from_0; [done|].
        intros Hu'%unclosed_spec. congruence.
    - destruct fuel; [lia|]. destruct (text self); [done|].
      simpl in Hz. lia. }
  split; [done|]. intros Hm Hs Hnb. apply Hgen. intros a b.
  destruct fuel; [lia|].
  destruct (parse_go_no_brackets (strip (slice a b (text self)))
              EmptyString []) as [ks Hks].
  { unfold strip, slice.
    by apply no_brackets_lstrip, no_brackets_rstrip, no_brackets_substring. }
  by eapply get_modality_bare.
Qed.

Lemma chunk_unresolved_witness :
  chunk 30 [] (UserMessage " see {{image}} here ")
  = Some (Ok [CText "see {{image}} here"])
  ∧ chunk 30 [] (UserMessage " see {{image}} and {{more ")
    = Some (Ok [CText " see {{image}} and {{more "]).
Proof.
  split.
  - exact (proj2 (chunk_unresolved [] (UserMessage " see {{image}} here ") 30
                    ltac:(simpl; lia)) eq_refl eq_refl eq_refl).
  - exact (proj2 (chunk_unresolved []
                    (UserMessage " see {{image}} and {{more ") 30
                    ltac:(simpl; lia)) eq_refl eq_refl eq_refl).
Defined.

End Unresolved.

(** ** Construction from a value *)

Lemma chunk_object_marker fuel h m o :
  text m = "{{object}}" → metadata m !! "object" = Some (VMod o) →
  chunk (11 + fuel) h m = Some (Ok [CMod o]).
Proof.
  intros Ht Hm. unfold chunk. rewrite Ht.
  assert (get_modality (11 + fuel) h m "object" () true
          = Some (Ok (inl o))) as Hl.
  { apply get_modality_own.
    rewrite (get_metadata _ _ _ [KName "object"])
      by (reflexivity || discriminate).
    cbn [pg.query pg.get_item]. by rewrite Hm. }
  set (lookup := λ var_name, get_modality (11 + fuel) h m var_name () true).
  assert (lookup "object" = Some (Ok (inl o))) as Hl' by done.
  clearbody lookup.
  change (11 + fuel) with (S (S (9 + fuel))).
  remember (S (9 + fuel)) as fuel' eqn:Hfuel'.
  cbn [chunk_loop].
  change (PyStr.find modality.REF_START "{{object}}" 0) with (Some 0).
  cbv iota beta.
  change (PyStr.find modality.REF_END "{{object}}"
            (0 + String.length modality.REF_START)) with (Some 8).
  cbv iota beta.
  change (PyStr.strip (PyStr.slice (0 + String.length modality.REF_START) 8
                         "{{object}}")) with "object".
  rewrite Hl'. subst fuel'. reflexivity.
Qed.

(** X8.  [from_value] on a role variant: a message is handed back as it
    is, whatever its class; a string becomes the text, untrimmed, of a
    message without metadata, tags or source; a modality object becomes a
    message that [chunk] turns into that object alone. *)
Theorem from_value_cases (c : MessageClass) :
  c ≠ cMessage →
  (∀ m, from_value c (FMessage m) = Ok m)
  ∧ (∀ s, ∃ m, from_value c (FStr s) = Ok m
         ∧ cls m = c ∧ text m = s ∧ metadata m = ∅ ∧ tags m = []
         ∧ source m = None ∧ default_sender c = Some (sender m)
         ∧ __eq__ m (PStr s) = true)
  ∧ (∀ o, ∃ m, from_value c (FModality o) = Ok m
         ∧ cls m = c ∧ source m = None
         ∧ get m "object" VNone = Ok (AVal (VMod o))
         ∧ ∀ h fuel, chunk (11 + fuel) h m = Some (Ok [CMod o])).
Proof.
  intros Hc. destruct (default_sender_variant c Hc) as [sender_ Hs].
  split_and!.
  - done.
  - intros s. eexists. split.
    { unfold from_value, __init__. rewrite Hs. reflexivity. }
    simpl. split_and!; try done. by apply bool_decide_eq_true.
  - intros o. eexists. split.
    { unfold from_value, __init__. rewrite Hs. reflexivity. }
    simpl. split_and!; [done..|].
    intros h fuel. apply chunk_object_marker; [done|]. simpl.
    by rewrite (right_id_L ∅ (∪)), lookup_singleton_eq.
Qed.

Lemma from_value_cases_witness :
  let img := mkModality "img" false in
  ∃ m, from_value cUserMessage (FModality img) = Ok m
    ∧ chunk (11 + 0) [] m = Some (Ok [CMod img]).
Proof.
  intros img.
  destruct (proj2 (proj2 (from_value_cases cUserMessage
                            ltac:(discriminate))) img)
    as (m & Hm & _ & _ & _ & Hchunk).
  exists m. split; [exact Hm|apply Hchunk].
Defined.

(** ** Equality, hashing and roles, continued *)

Lemma issubclass_trans a b c :
  issubclass a b = true → issubclass b c = true → issubclass a c = true.
Proof. by destruct a, b, c. Qed.

(** X9.  On messages [__eq__] is reflexive and transitive, and symmetric
    between messages of one class; it looks at neither tags nor source; and
    whatever equals a message hashes like it: an equal message, and the
    string that is its text. *)
Theorem eq_preorder (hash : string → Z) :
  (∀ m, __eq__ m (PMsg m) = true)
  ∧ (∀ a b c, __eq__ a (PMsg b) = true → __eq__ b (PMsg c) = true →
              __eq__ a (PMsg c) = true)
  ∧ (∀ a b, cls a = cls b → __eq__ a (PMsg b) = __eq__ b (PMsg a))
  ∧ (∀ a b ts src,
       __eq__ a (PMsg (source_setter src (set_tags ts b))) = __eq__ a (PMsg b)
       ∧ __eq__ (source_setter src (set_tags ts a)) (PMsg b)
         = __eq__ a (PMsg b))
  ∧ (∀ a b, __eq__ a (PMsg b) = true → __hash__ hash a = __hash__ hash b)
  ∧ (∀ a s, __eq__ a (PStr s) = true → __hash__ hash a = hash s).
Proof.
  assert (∀ a b, __eq__ a (PMsg b) = true →
            isinstance b (cls a) = true ∧ text a = text b
            ∧ sender a = sender b ∧ metadata a = metadata b) as Hinv.
  { intros a b H.
    destruct (isinstance b (cls a)) eqn:Hi.
    - by apply eq_fields in H.
    - simpl in H. by rewrite Hi in H. }
  split_and!.
  - intros m. apply eq_fields; [apply issubclass_same|done].
  - intros a b c (Hab & ? & ? & ?)%Hinv (Hbc & ? & ? & ?)%Hinv.
    apply eq_fields.
    + unfold isinstance in *. by eapply issubclass_trans.
    + split_and!; congruence.
  - intros a b Hc. simpl. unfold isinstance. rewrite Hc, !issubclass_same.
    f_equal; [f_equal|]; apply bool_decide_ext; split; congruence.
  - done.
  - intros a b (_ & Ht & _)%Hinv. unfold __hash__. by rewrite Ht.
  - intros a s Ht%bool_decide_eq_true. unfold __hash__. by rewrite Ht.
Qed.

(** X10.  The role tests look at the class alone: each holds exactly for
    the messages of its class, so at most one of them holds, none holds for
    a message of the base class, and the sender plays no part. *)
Theorem role_tests_by_class (m : Message) :
  (from_user m = true ↔ cls m = cUserMessage)
  ∧ (from_agent m = true ↔ cls m = cAIMessage)
  ∧ (from_system m = true ↔ cls m = cSystemMessage)
  ∧ (from_memory m = true ↔ cls m = cMemoryRecord)
  ∧ (cls m = cMessage →
     from_user m = false ∧ from_agent m = false ∧ from_system m = false
     ∧ from_memory m = false)
  ∧ (∀ s, from_user (set_sender s m) = from_user m
          ∧ from_agent (set_sender s m) = from_agent m
          ∧ from_system (set_sender s m) = from_system m
          ∧ from_memory (set_sender s m) = from_memory m).
Proof.
  unfold from_user, from_agent, from_system, from_memory, isinstance.
  destruct m as [[] ? ? ? ? ?]; simpl; split_and!; try done;
    by (split; intros; discriminate).
Qed.

(** ** Reading and writing fields, continued *)

Lemma plain_name_nonempty x : plain_name x → PyStr.is_empty x = false.
Proof. by destruct x. Qed.

Lemma get_plain m y d :
  plain_name y → y ≠ PATH_TEXT →
  get m y d = Ok (AVal (unref (default d (metadata m !! y)))).
Proof.
  intros Hy Ht.
  rewrite (get_metadata _ _ _ [KName y])
    by (by apply plain_name_nonempty || done).
  cbn [pg.query pg.get_item].
  by destruct (metadata m !! y).
Qed.

Lemma set_plain st x v :
  plain_name x → x ≠ PATH_TEXT →
  ∃ st', set x v st = (Ok (), st')
    ∧ self st' =
        set_metadata (if is_missing v then delete x (metadata (self st))
                      else <[x:=v]> (metadata (self st))) (self st).
Proof.
  intros Hx Ht. pose proof (set_metadata_outcome st x v Ht) as Ho.
  rewrite Hx in Ho. exact Ho.
Qed.

(** X11.  Python calls [__getattr__] only for a name that normal
    attribute lookup does not find.  For such a name that is one field
    name of a key path, attribute access and [get] agree: [get] returns
    what the attribute access returns, and its default (looked through when
    it is a reference wrapper) exactly where the attribute access raises
    [AttributeError].  Both look through a reference wrapper. *)
Theorem getattr_agrees_with_get (inherited : string → bool) (m : Message)
    (key : string) (d : Value) :
  has_attribute inherited key = false → plain_name key →
  get m key d = Ok (AVal (default (unref d) (__getattr__ m key)))
  ∧ (__getattr__ m key = None ↔ metadata m !! key = None)
  ∧ (∀ v, metadata m !! key = Some v → __getattr__ m key = Some (unref v)).
Proof.
  intros Ha Hk.
  assert (key ≠ PATH_TEXT) as Ht.
  { intros ->. by vm_compute in Ha. }
  rewrite get_plain by done. unfold __getattr__.
  destruct (metadata m !! key) as [v|]; split_and!; try done.
  by intros ? [= <-].
Qed.

Lemma getattr_agrees_with_get_witness :
  let img := mkModality "img" true in
  let m := new cUserMessage "hi" {["pic" := VRef (VMod img)]} in
  get m "pic" VNone
  = Ok (AVal (default (unref VNone) (__getattr__ m "pic")))
  ∧ __getattr__ m "pic" = Some (VMod img)
  ∧ get m "nope" (VInt 0) = Ok (AVal (VInt 0))
  ∧ __getattr__ m "nope" = None
  ∧ has_attribute (λ _, false) "result" = true.
Proof.
  intros img m. split_and!.
  - exact (proj1 (getattr_agrees_with_get (λ _, false) m "pic" VNone
                    eq_refl eq_refl)).
  - reflexivity.
  - reflexivity.
  - reflexivity.
  - reflexivity.
Defined.

(** X12.  The property [result] reads what its setter wrote: after the
    setter ran with a value other than the missing sentinel, the getter
    returns that value (looked through when it is a reference wrapper), and
    text, sender and the other metadata keys are what they were.  For a
    message without a result the getter returns [None]. *)
Theorem result_round_trip (st : State) (v : Value) :
  v ≠ VMissing →
  (∃ st', result_setter v st = (Ok (), st')
     ∧ result (self st') = Ok (AVal (unref v))
     ∧ text (self st') = text (self st)
     ∧ sender (self st') = sender (self st)
     ∧ ∀ k, k ≠ PATH_RESULT →
            metadata (self st') !! k = metadata (self st) !! k)
  ∧ (metadata (self st) !! PATH_RESULT = None →
     result (self st) = Ok (AVal VNone)).
Proof.
  intros Hv.
  assert (plain_name PATH_RESULT) as Hp by reflexivity.
  assert (PATH_RESULT ≠ PATH_TEXT) as Ht by discriminate.
  split.
  - destruct (set_plain st PATH_RESULT v Hp Ht) as (st' & Hs & Hself).
    exists st'. split; [exact Hs|]. unfold result.
    rewrite get_plain, Hself by done. cbn [metadata text sender set_metadata].
    assert (is_missing v = false) as -> by by destruct v.
    rewrite lookup_insert_eq. split_and!; [done..|].
    intros k Hk. by rewrite lookup_insert_ne.
  - intros Hn. unfold result. rewrite get_plain by done. by rewrite Hn.
Qed.

Lemma result_round_trip_witness :
  let st0 := _on_init (AIMessage "the answer is 42") in
  (∃ st', result_setter (VInt 42) st0 = (Ok (), st')
          ∧ result (self st') = Ok (AVal (VInt 42)))
  ∧ result (self st0) = Ok (AVal VNone).
Proof.
  intros st0.
  destruct (result_round_trip st0 (VInt 42) ltac:(discriminate))
    as ((st' & Hs & Hr & _) & Hnone).
  split; [by exists st'|]. by apply Hnone.
Defined.

(** X13.  A [set] of a field name leaves every other field name alone:
    [get] on another name, the text included, returns what it returned
    before.  A [set] of the text leaves all metadata reads alone. *)
Theorem set_frame (st : State) :
  (∀ x y v d, plain_name x → plain_name y → x ≠ PATH_TEXT → x ≠ y →
     v ≠ VMissing →
     ∃ st', set x v st = (Ok (), st')
            ∧ get (self st') y d = get (self st) y d)
  ∧ (∀ s y d, PyStr.is_empty y = false → y ≠ PATH_TEXT →
       ∃ st', set PATH_TEXT (VStr s) st = (Ok (), st')
              ∧ get (self st') y d = get (self st) y d).
Proof.
  split.
  - intros x y v d Hx Hy Hxt Hxy Hv.
    destruct (set_plain st x v Hx Hxt) as (st' & Hs & Hself).
    exists st'. split; [exact Hs|].
    destruct (decide (y = PATH_TEXT)) as [->|Hyt].
    { unfold get. simpl. by rewrite Hself. }
    rewrite !get_plain, Hself by done. cbn [metadata set_metadata].
    assert (is_missing v = false) as -> by by destruct v.
    by rewrite lookup_insert_ne.
  - intros s y d He Hy.
    destruct (set_text_run st s) as (st' & Hs & Hself).
    exists st'. split; [exact Hs|].
    unfold get. rewrite He, !decide_False by done. by rewrite Hself.
Qed.

Lemma set_frame_witness :
  let st0 := _on_init (new cAIMessage "foo" {["y" := VInt 2]}) in
  ∃ st', set "x" (VInt 1) st0 = (Ok (), st')
         ∧ get (self st') "y" VNone = get (self st0) "y" VNone.
Proof.
  intros st0.
  exact (proj1 (set_frame st0) "x" "y" (VInt 1) VNone eq_refl eq_refl
           ltac:(discriminate) ltac:(discriminate) ltac:(discriminate)).
Defined.

(** ** Change tracking, continued *)

Lemma notify_grows ups st :
  ∃ st' X, notify ups st = (Ok (), st')
    ∧ self st' = self st
    ∧ _updates st' = _updates st ∧ _errors st' = _errors st
    ∧ lists st' = lists st ∧ length (dicts st') = length (dicts st)
    ∧ notify_enabled st' = notify_enabled st
    ∧ updates st' = X ∪ updates st.
Proof.
  unfold notify.
  destruct (notify_enabled st && negb (bool_decide (ups = []))) eqn:Hn.
  - destruct (decide (_updates st < length (dicts st))) as [Hlt|Hge].
    + eexists _, (list_to_map ((λ u, (path u, u)) <$> ups)).
      split; [reflexivity|]. unfold updates. simpl.
      split_and!; [done..|by rewrite length_alter|done|].
      apply lookup_lt_is_Some in Hlt as [d Hd].
      by rewrite list_lookup_alter_eq, Hd.
    + eexists _, ∅.
      split; [reflexivity|]. unfold updates. simpl.
      split_and!; [done..|by rewrite length_alter|done|].
      rewrite list_lookup_alter_eq.
      rewrite (proj2 (lookup_ge_None _ _)) by lia. simpl.
      by rewrite (left_id_L ∅ (∪)).
  - exists st, ∅. split_and!; try done. by rewrite (left_id_L ∅ (∪)).
Qed.

Lemma set_grows st p v :
  ∃ X, _updates (set p v st).2 = _updates st
    ∧ _errors (set p v st).2 = _errors st
    ∧ lists (set p v st).2 = lists st
    ∧ length (dicts (set p v st).2) = length (dicts st)
    ∧ notify_enabled (set p v st).2 = notify_enabled st
    ∧ updates (set p v st).2 = X ∪ updates st.
Proof.
  assert (∀ f ups, ∃ X,
            _updates (notify ups (with_self f st)).2 = _updates st
            ∧ _errors (notify ups (with_self f st)).2 = _errors st
            ∧ lists (notify ups (with_self f st)).2 = lists st
            ∧ length (dicts (notify ups (with_self f st)).2)
              = length (dicts st)
            ∧ notify_enabled (notify ups (with_self f st)).2
              = notify_enabled st
            ∧ updates (notify ups (with_self f st)).2 = X ∪ updates st)
    as Hnotify.
  { intros f ups.
    destruct (notify_grows ups (with_self f st))
      as (st' & X & -> & _ & ? & ? & ? & ? & ? & ?).
    exists X. by split_and!. }
  assert (∃ X : Updates,
            _updates st = _updates st ∧ _errors st = _errors st
            ∧ lists st = lists st ∧ length (dicts st) = length (dicts st)
            ∧ notify_enabled st = notify_enabled st
            ∧ updates st = X ∪ updates st) as Hsame.
  { exists ∅. split_and!; try done. by rewrite (left_id_L ∅ (∪)). }
  unfold set. destruct (decide (p = PATH_TEXT)) as [->|Hp].
  - unfold Message_rebind.
    change (pg.parse PATH_TEXT) with (Ok [KName "text"] : Result KeyPath).
    cbn [decide_rel]. rewrite decide_True by done.
    destruct v; try exact Hsame.
    destruct (decide (text (self st) = s)); [exact Hsame|apply Hnotify].
  - unfold metadata_rebind.
    destruct (pg.rebind _ _ _ _) as [[d ups]|e]; [apply Hnotify|exact Hsame].
Qed.

(** X14.  Whatever the key path and the value, and whether it succeeds or
    raises, [set] keeps the record of changes: every path recorded in the
    current updates stays recorded, a modified message stays modified, and
    the errors, the current collections and the notification switch are
    not touched.  A [set] that changes the value of a field name records
    the change under the path of the field and marks the message as
    modified; a [set] of the text to the text it has records nothing. *)
Theorem set_tracks_changes (st : State) :
  (∀ p v,
     dom (updates st) ⊆ dom (updates (set p v st).2)
     ∧ (modified st = true → modified (set p v st).2 = true)
     ∧ errors (set p v st).2 = errors st
     ∧ _updates (set p v st).2 = _updates st
     ∧ _errors (set p v st).2 = _errors st
     ∧ notify_enabled (set p v st).2 = notify_enabled st)
  ∧ (∀ x v, plain_name x → x ≠ PATH_TEXT → v ≠ VMissing →
       metadata (self st) !! x ≠ Some v →
       notify_enabled st = true → refs_valid st →
       updates (set x v st).2 !! [KName "metadata"; KName x]
       = Some (field_update x (default VMissing (metadata (self st) !! x)) v)
       ∧ modified (set x v st).2 = true)
  ∧ set PATH_TEXT (VStr (text (self st))) st = (Ok (), st).
Proof.
  split_and!.
  - intros p v.
    destruct (set_grows st p v) as (X & Hu & He & Hl & _ & Hn & Hup).
    assert (dom (updates st) ⊆ dom (updates (set p v st).2)) as Hdom.
    { rewrite Hup, dom_union. set_solver. }
    split_and!; [done| |by unfold errors; rewrite He, Hl|done..].
    unfold modified. rewrite !bool_decide_eq_true.
    intros Hne Hempty. apply Hne. apply dom_empty_iff_L.
    rewrite Hempty, dom_empty_L in Hdom. set_solver.
  - intros x v Hx Hxt Hv Hold Hn [Hu _].
    rewrite set_field by done. cbn [snd].
    set (st' := with_dicts _ _).
    assert (updates st' !! [KName "metadata"; KName x]
            = Some (field_update x
                      (default VMissing (metadata (self st) !! x)) v))
      as Hlook.
    { unfold updates, st'. simpl.
      apply lookup_lt_is_Some in Hu as [d Hd].
      rewrite list_lookup_alter_eq, Hd. simpl.
      apply lookup_union_Some_l, lookup_singleton_eq. }
    split; [done|]. apply bool_decide_eq_true. intros Hempty.
    by rewrite Hempty, lookup_empty in Hlook.
  - unfold set. rewrite decide_True by done. unfold Message_rebind.
    change (pg.parse PATH_TEXT) with (Ok [KName "text"] : Result KeyPath).
    cbn [decide_rel]. rewrite decide_True by done.
    by rewrite decide_True.
Qed.

Lemma set_tracks_changes_witness :
  let st0 := _on_init (UserMessage "hi") in
  updates (set "x" (VInt 1) st0).2 !! [KName "metadata"; KName "x"]
  = Some (field_update "x" VMissing (VInt 1))
  ∧ modified (set "x" (VInt 1) st0).2 = true
  ∧ modified st0 = false.
Proof.
  intros st0.
  destruct (proj1 (proj2 (set_tracks_changes st0)) "x" (VInt 1))
    as [Hu Hm]; [reflexivity|discriminate|discriminate
                |simpl; by rewrite lookup_empty|reflexivity|split; simpl; lia|].
  split_and!; [exact Hu|exact Hm|reflexivity].
Defined.

(** ** Tagging, continued *)

(** X15.  Tagging with any sequence of tags, one [tag] call after the
    other: every call returns normally; the tags afterwards are the tags
    before, in their order, followed by new ones; a tag is among them
    exactly when it was there before or is in the sequence; a duplicate-free
    tag list stays duplicate-free; and none of this is recorded as an
    update. *)
Theorem tags_accumulate (st : State) (ts : list string) :
  let st' := foldl (λ s t, (tag t s).2) st ts in
  (∀ s t, (tag t s).1 = Ok ())
  ∧ tags (self st) `prefix_of` tags (self st')
  ∧ (∀ t, t ∈ tags (self st') ↔ t ∈ tags (self st) ∨ t ∈ ts)
  ∧ (NoDup (tags (self st)) → NoDup (tags (self st')))
  ∧ updates st' = updates st
  ∧ text (self st') = text (self st)
  ∧ metadata (self st') = metadata (self st).
Proof.
  intros st'. split; [intros s t; by rewrite tag_run|]. subst st'.
  revert st. induction ts as [|t ts IH]; intros st.
  { simpl. split_and!; try done.
    intros t. rewrite elem_of_nil. tauto. }
  cbn [foldl]. rewrite tag_run. cbn [snd].
  case_bool_decide as Hin.
  - destruct (IH st) as (Hp & Hm & Hn & Hu & Ht & Hmd).
    split_and!; try done. intros x. rewrite Hm, elem_of_cons.
    split; [tauto|]. intros [?|[->|?]]; tauto.
  - destruct (IH (with_self (λ m, set_tags (tags m ++ [t]) m) st))
      as (Hp & Hm & Hn & Hu & Ht & Hmd).
    cbn [with_self self set_tags tags text metadata] in *.
    split_and!; try done.
    + etrans; [|exact Hp]. by apply prefix_app_r.
    + intros x.
      rewrite Hm, elem_of_app, list_elem_of_singleton, elem_of_cons. tauto.
    + intros Hnd. apply Hn. apply NoDup_app. split_and!; [done| |].
      * intros x Hx ->%list_elem_of_singleton. done.
      * apply NoDup_singleton.
Qed.

(** ** Evaluation by scoring *)

(** X16.  The audits of a scoring evaluation since its last reset are
    what [scored] lists, in the order of the calls, each with the score the
    [score] method gave; [num_scored] counts them; [_reset] forgets them
    and resets the base evaluation; and [audit] leaves the state of the
    base evaluation alone. *)
Theorem audits_are_scored {Example Output Score Base : Type}
    (super_reset : Base → Base) (score : Example → Output → Score)
    (self : @Scoring.Scoring Example Output Score Base)
    (runs : list (Example * Output)) :
  let audited s :=
    foldl (λ s r, Scoring.audit score r.1 r.2 s) s runs in
  Scoring.scored (audited self)
  = Scoring.scored self ++ ((λ r, (r.1, r.2, score r.1 r.2)) <$> runs)
  ∧ Scoring.num_scored (audited self)
    = Scoring.num_scored self + length runs
  ∧ Scoring.base (audited self) = Scoring.base self
  ∧ Scoring.scored (audited (Scoring._reset super_reset self))
    = (λ r, (r.1, r.2, score r.1 r.2)) <$> runs
  ∧ Scoring.num_scored (audited (Scoring._reset super_reset self))
    = length runs
  ∧ Scoring.num_scored (Scoring._reset super_reset (audited self)) = 0
  ∧ Scoring.base (Scoring._reset super_reset self)
    = super_reset (Scoring.base self).
Proof.
  intros audited.
  assert (∀ s, Scoring.scored (audited s)
               = Scoring.scored s ++ ((λ r, (r.1, r.2, score r.1 r.2)) <$> runs)
               ∧ Scoring.base (audited s) = Scoring.base s) as H.
  { subst audited. induction runs as [|[e o] runs IH]; intros s.
    - simpl. by rewrite app_nil_r.
    - cbn [foldl]. destruct (IH (Scoring.audit score (e, o).1 (e, o).2 s))
        as [-> ->]. split; [|done].
      unfold Scoring.scored, Scoring.audit. simpl.
      by rewrite <- app_assoc. }
  assert (∀ s, Scoring.num_scored (audited s)
               = Scoring.num_scored s + length runs) as Hn.
  { intros s. unfold Scoring.num_scored.
    change (Scoring._scored (audited s)) with (Scoring.scored (audited s)).
    rewrite (proj1 (H s)), List.length_app, length_fmap. done. }
  split_and!.
  - apply H.
  - apply Hn.
  - apply H.
  - by rewrite (proj1 (H _)).
  - by rewrite Hn.
  - done.
  - done.
Qed.

(** ** The two ways to build a message from chunks *)

(** X17.  On a role variant, [from_chunks] on a single text gives the
    message [from_value] gives for the trimmed text, and on no chunk the
    message of the empty text.  On a single modality object the two build
    messages with different texts (the object is named [obj0] by the one,
    [object] by the other) that [chunk] turns into the same list: the
    object alone. *)
Theorem constructors_agree (c : MessageClass) :
  c ≠ cMessage →
  (∀ s sep, from_chunks c [CText s] sep = from_value c (FStr (PyStr.strip s)))
  ∧ (∀ sep, from_chunks c [] sep = from_value c (FStr EmptyString))
  ∧ (∀ o sep, ∃ m1 m2,
       from_chunks c [CMod o] sep = Ok m1
       ∧ from_value c (FModality o) = Ok m2
       ∧ text m1 = "{{obj0}}" ∧ text m2 = "{{object}}"
       ∧ ∀ h fuel, chunk (11 + fuel) h m1 = Some (Ok [CMod o])
                   ∧ chunk (11 + fuel) h m2 = Some (Ok [CMod o])).
Proof.
  intros Hc. destruct (default_sender_variant c Hc) as [sender_ Hs].
  split_and!.
  - intros s sep. rewrite (from_chunks_run _ _ _ _ Hs).
    unfold from_value, __init__. rewrite Hs. cbn [from_option default].
    cbn [fused recorded]. simpl (0 <? 0).
    by rewrite append_nil, app_empty_r, (left_id_L ∅ (∪)).
  - intros sep. rewrite (from_chunks_run _ _ _ _ Hs).
    unfold from_value, __init__. rewrite Hs. cbn [from_option default].
    by rewrite (left_id_L ∅ (∪)).
  - intros o sep. eexists _, _. split; [by apply from_chunks_run|].
    split. { unfold from_value, __init__. rewrite Hs. reflexivity. }
    split; [reflexivity|]. split; [reflexivity|].
    intros h fuel. split.
    + rewrite (chunk_round_trip h (11 + fuel) _ [CMod o]); try done.
      simpl. lia.
    + apply chunk_object_marker; [done|]. simpl.
      by rewrite (right_id_L ∅ (∪)), lookup_singleton_eq.
Qed.

Lemma constructors_agree_witness :
  from_chunks cAIMessage [CText "  hello "] PyStr.LF
  = from_value cAIMessage (FStr (PyStr.strip "  hello "))
  ∧ from_value cAIMessage (FStr (PyStr.strip "  hello "))
    = Ok (AIMessage "hello").
Proof.
  split; [|reflexivity].
  exact (proj1 (constructors_agree cAIMessage ltac:(discriminate))
           "  hello " PyStr.LF).
Defined.

(** ** Construction *)

(** X18.  Keyword arguments of the constructor end up in the metadata and
    win over an entry of the [metadata] argument under the same key; the
    other entries of that argument are kept.  A sender that is given wins
    over the default sender of the class; tags default to none. *)
Theorem init_merges_kwargs (c : MessageClass) (t : string)
    (s : option string) (md : option (gmap string Value))
    (tg : option (list string)) (src : option addr)
    (kw : gmap string Value) :
  c ≠ cMessage ∨ is_Some s →
  ∃ m, __init__ c t s md tg src kw = Ok m
    ∧ cls m = c ∧ text m = t ∧ source m = src ∧ tags m = default [] tg
    ∧ (∀ k v, kw !! k = Some v → metadata m !! k = Some v)
    ∧ (∀ k, kw !! k = None → metadata m !! k = default ∅ md !! k)
    ∧ (∀ x, s = Some x → sender m = x)
    ∧ (s = None → default_sender c = Some (sender m)).
Proof.
  intros Hcs.
  assert (∃ x, from_option Some (default_sender c) s = Some x
               ∧ (∀ y, s = Some y → x = y)
               ∧ (s = None → default_sender c = Some x)) as (x & Hx & Hy & Hd).
  { destruct s as [y|]; simpl.
    - exists y. split_and!; [done| |done]. by intros ? [= <-].
    - destruct Hcs as [Hc|[? [=]]].
      destruct (default_sender_variant c Hc) as [x Hx]. exists x.
      by split_and!. }
  eexists. split; [unfold __init__; by rewrite Hx|].
  cbn [cls text source tags metadata sender].
  split_and!; try done.
  - intros k v Hk. by apply lookup_union_Some_l.
  - intros k Hk. by apply lookup_union_r.
Qed.

Lemma init_merges_kwargs_witness :
  ∃ m, __init__ cUserMessage "hi" (Some "Alice")
         (Some {["x" := VInt 1; "y" := VInt 2]}) None None {["x" := VInt 7]}
       = Ok m
    ∧ metadata m !! "x" = Some (VInt 7)
    ∧ metadata m !! "y" = Some (VInt 2)
    ∧ sender m = "Alice".
Proof.
  destruct (init_merges_kwargs cUserMessage "hi" (Some "Alice")
              (Some {["x" := VInt 1; "y" := VInt 2]}) None None
              {["x" := VInt 7]} ltac:(by left))
    as (m & Hm & _ & _ & _ & _ & Hkw & Hmd & Hs & _).
  exists m. split_and!.
  - exact Hm.
  - apply Hkw. reflexivity.
  - rewrite Hmd by reflexivity. reflexivity.
  - by apply Hs.
Defined.

(** ** Tagging and the source chain *)

Lemma chain_insert (h : Heap) a m m' cur l :
  h !! a = Some m → source m' = source m →
  chain h cur l → chain (<[a:=m']> h) cur l.
Proof.
  intros Ha Hs. induction 1 as [|b mb l Hb Hc IH]; [constructor|].
  destruct (decide (b = a)) as [->|Hne].
  - apply (chain_cons _ a m').
    + apply list_lookup_insert_eq. by eapply lookup_lt_Some.
    + rewrite Hs. by replace m with mb by congruence.
  - apply (chain_cons _ b mb); [|done]. by rewrite list_lookup_insert_ne.
Qed.

(** X19.  Once a message of the store has been tagged, the walks find it:
    [last] for that tag returns the message itself, and the trace for that
    tag ends with it.  Tagging does not touch the source, so the chain of
    every message is what it was. *)
Theorem tagged_message_is_last (h : Heap) (a : addr) (st : State)
    (t : string) (fuel : nat) :
  h !! a = Some (self st) →
  let h' := <[a := self (tag t st).2]> h in
  last (S fuel) h' a t = Some (Some a)
  ∧ (∀ cur l, chain h cur l → chain h' cur l)
  ∧ (∀ l, chain h (Some a) l → length l < fuel →
          ∃ tr, trace fuel h' a (Some t) = Some tr ∧ list.last tr = Some a).
Proof.
  intros Ha h'.
  assert (t ∈ tags (self (tag t st).2)) as Ht.
  { rewrite tag_run. cbn [snd]. case_bool_decide as Hin; [done|].
    simpl. apply elem_of_app. right. by apply list_elem_of_singleton. }
  assert (source (self (tag t st).2) = source (self st)) as Hs.
  { rewrite tag_run. cbn [snd]. by case_bool_decide. }
  assert (h' !! a = Some (self (tag t st).2)) as Ha'.
  { apply list_lookup_insert_eq. by eapply lookup_lt_Some. }
  assert (∀ cur l, chain h cur l → chain h' cur l) as Hchain.
  { intros cur l. by apply chain_insert with (self st). }
  split_and!; [|done|].
  - unfold last. cbn [last_loop]. rewrite Ha'. simpl.
    by rewrite bool_decide_true.
  - intros l Hc Hf. apply Hchain in Hc as Hc'. eexists. split.
    { unfold trace. by rewrite (trace_loop_chain _ (Some t) _ l). }
    inversion Hc as [|a' m l' Hm Hc'' Heq]; subst.
    rewrite app_nil_l, filter_cons, (has_tag_lookup _ _ _ _ Ha').
    rewrite decide_True by by rewrite bool_decide_true.
    by rewrite reverse_cons, last_snoc.
Qed.

Lemma tagged_message_is_last_witness :
  let root_ := mkMessage cUserMessage "q" "User" ∅ [] None in
  let m := mkMessage cAIMessage "a" "AI" ∅ [] (Some 0) in
  let st := _on_init m in
  last (S 3) (<[1 := self (tag "lm-response" st).2]> [root_; m]) 1
    "lm-response"
  = Some (Some 1)
  ∧ last (S 3) [root_; m] 1 "lm-response" = Some None.
Proof.
  intros root_ m st. split; [|reflexivity].
  exact (proj1 (tagged_message_is_last [root_; m] 1 st "lm-response" 3
                  eq_refl)).
Defined.
